(** * os1shell: a shallow embedding of [os1shell.c]

    The shell keeps its state in five globals ([history], [numChildren],
    [children], [histInd], [interrupted]) plus the blocks it obtains from
    [malloc].  The embedding threads that state explicitly through every
    function, keeps C [int]s as [Z], arrays as lists read and written by
    index through bounds-checked [load]/[store], and pointers as
    [option nat] ([None] is [NULL]).  Behaviour the C standard leaves
    undefined (a store past the end of an array, a read through [NULL] or
    through a freed pointer) is a [Fault]. *)

From Stdlib Require Import ZArith Lia Ascii String DecimalString.
From stdpp Require Import base numbers option list gmap strings.

Local Open Scope Z_scope.

(** ** Results of running C code *)

Inductive fault : Set :=
  | OutOfBounds (idx : Z)   (* array or block accessed at [idx], outside it *)
  | NullDeref               (* read or write through NULL *)
  | UseAfterFree            (* read or write through a freed pointer *)
  | DoubleFree              (* free of a block already freed *)
  | WildPointer             (* pointer to no block at all *)
  | UninitRead.             (* read of a local that was never written *)

Inductive result (A : Type) : Type :=
  | Done (a : A)
  | Fault (f : fault)
  | Timeout.                (* a loop model ran out of fuel *)
Arguments Done {A} a.
Arguments Fault {A} f.
Arguments Timeout {A}.

#[global] Instance result_ret : MRet result := fun _ a => Done a.
#[global] Instance result_bind : MBind result := fun _ _ f m =>
  match m with
  | Done a => f a
  | Fault e => Fault e
  | Timeout => Timeout
  end.

(** ** Memory primitives *)

Section Memory.
Context {A : Type}.

(** [arr[i]] as an rvalue. *)
Definition load (arr : list A) (i : Z) : result A :=
  if (0 <=? i) && (i <? Z.of_nat (length arr)) then
    match arr !! Z.to_nat i with
    | Some v => Done v
    | None => Fault (OutOfBounds i)
    end
  else Fault (OutOfBounds i).

(** [arr[i] = v]. *)
Definition store (arr : list A) (i : Z) (v : A) : result (list A) :=
  if (0 <=? i) && (i <? Z.of_nat (length arr)) then
    Done (<[Z.to_nat i := v]> arr)
  else Fault (OutOfBounds i).

(** The [malloc] arena of one element type: block [p] is the [p]-th
    entry, [None] once freed.  [malloc] always hands out a fresh block. *)
Definition malloc (h : list (option A)) (v : A) : nat * list (option A) :=
  (length h, h ++ [Some v]).

Definition deref (h : list (option A)) (p : option nat) : result A :=
  match p with
  | None => Fault NullDeref
  | Some a =>
      match h !! a with
      | Some (Some v) => Done v
      | Some None => Fault UseAfterFree
      | None => Fault WildPointer
      end
  end.

(** [free(p)]; [free(NULL)] does nothing. *)
Definition free (h : list (option A)) (p : option nat)
  : result (list (option A)) :=
  match p with
  | None => Done h
  | Some a =>
      match h !! a with
      | Some (Some _) => Done (<[a := None]> h)
      | Some None => Fault DoubleFree
      | None => Fault WildPointer
      end
  end.
End Memory.

(** ** C strings

    A [char*] argument is modelled by the bytes from the pointer up to the
    terminating NUL of the string it was handed; the end of the list is
    that terminator.  Once [strtok] has written NULs into it the list has
    NULs inside, and a string read from an offset stops at the first. *)

Definition NUL : ascii := Ascii.zero.

Definition text (s : string) : list ascii := list_ascii_of_string s.

Fixpoint cstring (m : list ascii) : list ascii :=
  match m with
  | [] => []
  | c :: m' => if Ascii.eqb c NUL then [] else c :: cstring m'
  end.

Definition strlen (m : list ascii) : Z := Z.of_nat (length (cstring m)).

(** ** The globals *)

Definition SHELL_PROMPT : list ascii := text "OS1Shell -> ".
Definition MAX_ARGS : Z := 10.
Definition HISTORY_SIZE : Z := 20.

Definition pid_t := Z.

Record shell : Type := Shell {
  history : list (option nat);       (* char* history[HISTORY_SIZE] *)
  numChildren : Z;
  children : list (option nat);      (* pid_t* children[32] *)
  histInd : Z;
  interrupted : Z;
  strs : list (option (list ascii)); (* blocks malloc'ed by recordcmd *)
  pids : list (option pid_t);        (* blocks malloc'ed by addChild *)
  out : list (list ascii);           (* what was written to stdout *)
  err : list (list ascii)            (* what was written to stderr *)
}.

(** Static storage is zero-initialised: every pointer starts NULL. *)
Definition initial : shell :=
  {| history := replicate 20 None; numChildren := 0;
     children := replicate 32 None; histInd := 0; interrupted := 0;
     strs := []; pids := []; out := []; err := [] |}.

(** ** History *)

(** [if( ++ind > HISTORY_SIZE-1 ) ind = 0;] *)
Definition advance (ind : Z) : Z :=
  if ind + 1 >? HISTORY_SIZE - 1 then 0 else ind + 1.

(** [recordcmd(cmd, sz)]: copy the string into a fresh [sz]-byte block,
    free the block the slot held, store the copy and advance the cursor.
    [strcpy] writes [strlen(cmd)+1] bytes, so it overruns the block when
    that exceeds [sz]. *)
Definition recordcmd (cmd : list ascii) (sz : Z) (st : shell) : result shell :=
  old ← load (history st) (histInd st);
  if strlen cmd + 1 <=? sz then
    let '(entry, strs1) := malloc (strs st) (cstring cmd) in
    strs2 ← free strs1 old;
    history' ← store (history st) (histInd st) (Some entry);
    Done {| history := history'; numChildren := numChildren st;
            children := children st; histInd := advance (histInd st);
            interrupted := interrupted st; strs := strs2; pids := pids st;
            out := out st; err := err st |}
  else Fault (OutOfBounds sz).

(** One pass of the [do ... while] body of [printHistory] per unit of
    fuel; the result lists, per iteration, the cursor and the line printed
    there (if the slot is not NULL). *)
Fixpoint printHistory_loop (fuel : nat) (printInd : Z) (st : shell)
  : result (list (Z * option (list ascii))) :=
  match fuel with
  | O => Timeout
  | S fuel' =>
      slot ← load (history st) printInd;
      line ← match slot with
             | None => Done None
             | Some p => s ← deref (strs st) (Some p); Done (Some s)
             end;
      let printInd' := advance printInd in
      if printInd' =? histInd st then Done [(printInd, line)]
      else rest ← printHistory_loop fuel' printInd' st;
           Done ((printInd, line) :: rest)
  end.

Definition newline : list ascii := text (String "010"%char EmptyString).

(** What [printf("%s\n", s)] writes. *)
Definition println (s : list ascii) : list ascii := s ++ newline.

Definition printed (trace : list (Z * option (list ascii))) : list (list ascii) :=
  omap snd trace.

Definition printHistory (st : shell) : result shell :=
  trace ← printHistory_loop (Z.to_nat HISTORY_SIZE) (histInd st) st;
  Done {| history := history st; numChildren := numChildren st;
          children := children st; histInd := histInd st;
          interrupted := interrupted st; strs := strs st; pids := pids st;
          out := out st ++ newline :: map println (printed trace);
          err := err st |}.

(** ** The child registry *)

(** [addChild(pid)]: a fresh cell holding [pid], stored at
    [children[numChildren++]].  The two [sigprocmask] calls around the
    body only defer SIGCHLD; they leave the globals alone. *)
Definition addChild (pid : pid_t) (st : shell) : result shell :=
  let '(child, pids') := malloc (pids st) pid in
  children' ← store (children st) (numChildren st) (Some child);
  Done {| history := history st; numChildren := numChildren st + 1;
          children := children'; histInd := histInd st;
          interrupted := interrupted st; strs := strs st; pids := pids';
          out := out st; err := err st |}.

Definition set_registry (st : shell) (n : Z) (ch : list (option nat))
    (cells : list (option pid_t)) : shell :=
  {| history := history st; numChildren := n; children := ch;
     histInd := histInd st; interrupted := interrupted st; strs := strs st;
     pids := cells; out := out st; err := err st |}.

(** The [for] loop of [removeChild], one iteration per unit of fuel.
    [openIndex] is the local of that name; [numChildren] is re-read from
    the state at every test of the loop condition, as in the source. *)
Fixpoint removeChild_loop (fuel : nat) (pid : pid_t) (i openIndex : Z)
    (st : shell) : result shell :=
  if i <? numChildren st then
    match fuel with
    | O => Timeout
    | S fuel' =>
        p ← load (children st) i;
        v ← deref (pids st) p;
        if v =? pid then
          cells ← free (pids st) p;
          removeChild_loop fuel' pid (i + 1) i
            (set_registry st (numChildren st - 1) (children st) cells)
        else if negb (openIndex =? 0) then
          children' ← store (children st) (i - 1) p;
          removeChild_loop fuel' pid (i + 1) openIndex
            (set_registry st (numChildren st) children' (pids st))
        else removeChild_loop fuel' pid (i + 1) openIndex st
    end
  else Done st.

(** [removeChild(pid)].  The local [openIndex] is declared without an
    initialiser, so the value it holds on entry is whatever the stack
    held: the argument [garbage]. *)
Definition removeChild (pid : pid_t) (garbage : Z) (st : shell) : result shell :=
  removeChild_loop (Z.to_nat (numChildren st)) pid 0 garbage st.

(** The [for] loop of [cleanup]: the pids [kill] is called on, in order. *)
Fixpoint cleanup_loop (fuel : nat) (i : Z) (st : shell) : result (list pid_t) :=
  if i <? numChildren st then
    match fuel with
    | O => Timeout
    | S fuel' =>
        p ← load (children st) i;
        v ← deref (pids st) p;
        rest ← cleanup_loop fuel' (i + 1) st;
        Done (v :: rest)
    end
  else Done [].

Definition cleanup (st : shell) : result (list pid_t) :=
  if 0 <? numChildren st then cleanup_loop (Z.to_nat (numChildren st)) 0 st
  else Done [].

(** ** The signal handler *)

(** Signal numbers of <signal.h> (Linux). *)
Definition SIGINT : Z := 2.
Definition SIGQUIT : Z := 3.
Definition SIGCHLD : Z := 17.

(** [while( (pid = waitpid(-1, &status, WNOHANG)) > 0 ) removeChild(pid);]
    against [zombies], the values the successive [waitpid] calls return
    (the children that have exited and not been reaped); once the list is
    used up [waitpid] returns 0 or -1.  The result carries the values not
    asked for. *)
Fixpoint reap_loop (zombies : list pid_t) (garbage : Z) (st : shell)
  : result (shell * list pid_t) :=
  match zombies with
  | [] => Done (st, [])
  | z :: rest =>
      if 0 <? z then
        st' ← removeChild z garbage st;
        reap_loop rest garbage st'
      else Done (st, rest)
  end.

Definition decimal (n : Z) : list ascii :=
  text (DecimalString.NilZero.string_of_int (Z.to_int n)).

Definition set_io (st : shell) (flag : Z) (o : list (list ascii)) : shell :=
  {| history := history st; numChildren := numChildren st;
     children := children st; histInd := histInd st; interrupted := flag;
     strs := strs st; pids := pids st; out := o; err := err st |}.

Definition sig_handler (sig : Z) (zombies : list pid_t) (garbage : Z)
    (st : shell) : result (shell * list pid_t) :=
  '(st', zombies') ←
    (if sig =? SIGINT then
       st' ← printHistory st; Done (st', zombies)
     else if sig =? SIGCHLD then
       reap_loop zombies garbage st
     else
       Done (set_io st (interrupted st)
               (out st ++ [newline ++ text "Recieved Signal:" ++ decimal sig
                           ++ newline]),
             zombies));
  Done (set_io st' 1 (out st'), zombies').

(** ** The dispatcher *)

(** *** [strtok] *)

Definition is_delim (delim : list ascii) (c : ascii) : bool :=
  existsb (Ascii.eqb c) delim.

(** Length of the leading run of delimiters. *)
Fixpoint strspn (delim m : list ascii) : nat :=
  match m with
  | [] => O
  | c :: m' => if is_delim delim c then S (strspn delim m') else O
  end.

(** Length of the leading run of bytes that are neither a delimiter nor
    the terminator. *)
Fixpoint strcspn (delim m : list ascii) : nat :=
  match m with
  | [] => O
  | c :: m' =>
      if Ascii.eqb c NUL || is_delim delim c then O
      else S (strcspn delim m')
  end.

(** The byte at offset [p]; past the end of the list it is the terminator. *)
Definition byte_at (buf : list ascii) (p : nat) : ascii := default NUL (buf !! p).

(** [strtok(s, delim)] on the buffer [buf], where [olds] is the position
    the previous call saved and [s = None] is a NULL first argument.
    Returns the token (an offset into [buf], or [None] for NULL), the
    buffer with the token's terminator written, and the saved position. *)
Definition strtok (s : option nat) (delim buf : list ascii) (olds : nat)
  : option nat * list ascii * nat :=
  let s0 := default olds s in
  let start := (s0 + strspn delim (drop s0 buf))%nat in
  if Ascii.eqb (byte_at buf start) NUL then (None, buf, start)
  else
    let e := (start + strcspn delim (drop start buf))%nat in
    if Ascii.eqb (byte_at buf e) NUL then (Some start, buf, e)
    else (Some start, <[e := NUL]> buf, S e).

(** *** [execcmd] *)

(** An element of the local [char* tokens[MAX_ARGS]]. *)
Inductive slot : Set :=
  | Uninit            (* never written *)
  | Null
  | Tok (p : nat).    (* pointer to offset [p] of the command buffer *)

Definition space : list ascii := [" "%char].
Definition blanks : list ascii := [" "%char; "013"%char; "010"%char].
Definition amp : ascii := "&"%char.

(** The [while] loop that fills [tokens]. *)
Fixpoint tokenize (fuel : nat) (i : Z) (token : option nat)
    (tokens : list slot) (buf : list ascii) (olds : nat)
  : result (Z * list slot * list ascii) :=
  match token with
  | Some p =>
      if i <? MAX_ARGS then
        match fuel with
        | O => Timeout
        | S fuel' =>
            tokens' ← store tokens i (Tok p);
            let '(token', buf', olds') := strtok None space buf olds in
            tokenize fuel' (i + 1) token' tokens' buf' olds'
        end
      else Done (i, tokens, buf)
  | None => Done (i, tokens, buf)
  end.

(** The pointer held in a slot, as needed to read through it. *)
Definition pointer (s : slot) : result nat :=
  match s with
  | Tok p => Done p
  | Null => Fault NullDeref
  | Uninit => Fault UninitRead
  end.

(** [buf[i]] for reading: the terminator at the end may be read. *)
Definition peek (buf : list ascii) (i : Z) : result ascii :=
  if (0 <=? i) && (i <=? Z.of_nat (length buf)) then Done (byte_at buf (Z.to_nat i))
  else Fault (OutOfBounds i).

(** Lines 143-157: split [cmd] into [tokens] and end them with NULL. *)
Definition split (cmd : list ascii) : result (Z * list slot * list ascii) :=
  let '(token, buf, olds) := strtok (Some O) blanks cmd O in
  '(i, tokens, buf) ←
    tokenize (Z.to_nat MAX_ARGS) 0 token (replicate (Z.to_nat MAX_ARGS) Uninit)
      buf olds;
  tokens' ← store tokens i Null;
  Done (i, tokens', buf).

(** Lines 159-167: look for the background marker. *)
Definition marker (i : Z) (tokens : list slot) (buf : list ascii)
  : result (list slot * list ascii * Z) :=
  t0 ← load tokens 0;
  p0 ← pointer t0;
  let last := Z.of_nat p0 + strlen (drop p0 buf) - 1 in
  c ← peek buf last;
  if Ascii.eqb c amp then
    buf' ← store buf last NUL;
    Done (tokens, buf', 1)
  else
    tl ← load tokens (i - 1);
    pl ← pointer tl;
    c0 ← peek buf (Z.of_nat pl);
    if Ascii.eqb c0 amp && (strlen (drop pl buf) =? 1) then
      tokens' ← store tokens (i - 1) Null;
      Done (tokens', buf, 1)
    else Done (tokens, buf, 0).

(** Lines 143-167 together: the argument vector, the buffer and the
    [background] flag as they stand when [fork] is called. *)
Definition parse (cmd : list ascii) : result (list slot * list ascii * Z) :=
  '(i, tokens, buf) ← split cmd;
  marker i tokens buf.

(** The strings of a NULL-terminated [char*] array, as [execvp] reads it. *)
Fixpoint argv_of (buf : list ascii) (tokens : list slot) (i : Z)
  : result (list (list ascii)) :=
  match tokens with
  | [] => Fault (OutOfBounds i)
  | Null :: _ => Done []
  | Uninit :: _ => Fault UninitRead
  | Tok p :: rest =>
      args ← argv_of buf rest (i + 1);
      Done (cstring (drop p buf) :: args)
  end.

(** What the calls into the kernel answer during one [execcmd]. *)
Record os : Type := Os {
  fork_ret : Z;             (* value [fork] returns in this process *)
  execvp_ok : bool;         (* whether [execvp] finds the program *)
  wait_reports : list pid_t (* values successive [wait] calls return *)
}.

(** How a piece of the shell can end. *)
Inductive outcome (A : Type) : Type :=
  | Continues (a : A)                                  (* control goes on *)
  | Execs (file : list ascii) (argv : list (list ascii)) (* child runs it *)
  | Exits (status : Z) (msg : list ascii)              (* child gave up *)
  | Blocked                                            (* still in [wait] *)
  | Crashed (f : fault)
  | Stuck.
Arguments Continues {A} a.
Arguments Execs {A} file argv.
Arguments Exits {A} status msg.
Arguments Blocked {A}.
Arguments Crashed {A} f.
Arguments Stuck {A}.

Definition run {A B : Type} (r : result A) (k : A → outcome B) : outcome B :=
  match r with
  | Done a => k a
  | Fault f => Crashed f
  | Timeout => Stuck
  end.

(** [while( pid != wait(&status) );] against the reports still to come:
    the reports left once [pid] has been reported. *)
Fixpoint wait_for (pid : pid_t) (reports : list pid_t) : option (list pid_t) :=
  match reports with
  | [] => None
  | r :: rest => if negb (pid =? r) then wait_for pid rest else Some rest
  end.

Definition fork_error : list ascii :=
  println (text "Error: could not fork child process").
Definition not_found : list ascii := text ": command not found".

Definition set_err (st : shell) (e : list (list ascii)) : shell :=
  {| history := history st; numChildren := numChildren st;
     children := children st; histInd := histInd st;
     interrupted := interrupted st; strs := strs st; pids := pids st;
     out := out st; err := e |}.

(** [execcmd(cmd)]: the value returned, the globals, the command buffer
    as tokenizing left it and the [wait] reports not consumed. *)
Definition execcmd (cmd : list ascii) (env : os) (st : shell)
  : outcome (Z * shell * list ascii * list pid_t) :=
  run (parse cmd) (λ '(tokens, buf, background),
    let pid := fork_ret env in
    if 0 >? pid then
      Continues (-1, set_err st (err st ++ [fork_error]), buf, wait_reports env)
    else if 0 =? pid then
      run (t0 ← load tokens 0; p0 ← pointer t0;
           argv ← argv_of buf tokens 0;
           Done (cstring (drop p0 buf), argv)) (λ '(file, argv),
        if execvp_ok env then Execs file argv
        else Exits (-1) (println (file ++ not_found)))
    else if background =? 0 then
      match wait_for pid (wait_reports env) with
      | Some rest => Continues (1, st, buf, rest)
      | None => Blocked
      end
    else
      run (addChild pid st) (λ st', Continues (1, st', buf, wait_reports env))).

(** ** The read loop *)

Definition buffSize : Z := 64.

(** [strchr(s, c)] over the array [s]: the offset of the first [c], NULL
    if the string ends first; with neither in the array the scan leaves
    it at offset [base + length s]. *)
Fixpoint strchr (s : list ascii) (c : ascii) (base : nat) : result (option nat) :=
  match s with
  | [] => Fault (OutOfBounds (Z.of_nat base))
  | x :: s' =>
      if Ascii.eqb x c then Done (Some base)
      else if Ascii.eqb x NUL then Done None
      else strchr s' c (S base)
  end.

(** Lines 52-53: the first newline of the line just read becomes its
    terminator. *)
Definition chomp (buff : list ascii) : result (list ascii) :=
  nl ← strchr buff "010"%char O;
  match nl with
  | Some k => store buff (Z.of_nat k) NUL
  | None => Done buff
  end.

(** Lines 59-61: clear the flag and print the prompt. *)
Definition prompt (st : shell) : shell :=
  set_io st 0 (out st ++ [SHELL_PROMPT]).

Definition and_then {A B : Type} (o : outcome A) (k : A → outcome B)
  : outcome B :=
  match o with
  | Continues a => k a
  | Execs file argv => Execs file argv
  | Exits status msg => Exits status msg
  | Blocked => Blocked
  | Crashed f => Crashed f
  | Stuck => Stuck
  end.

(** The body of the [while] loop of [main] once [read] has returned [r]
    and left [buff] holding what it read (over what was there before):
    the globals and [buff] when the next [read] is about to start. *)
Definition iteration (r : Z) (buff : list ascii) (env : os) (st : shell)
  : outcome (shell * list ascii) :=
  if (r >? 1) && (interrupted st =? 0) then
    run (chomp buff) (λ buff',
    run (recordcmd buff' r st) (λ st',
    and_then (execcmd buff' env st') (λ '(_, st'', buff'', _),
      Continues (prompt st'', buff''))))
  else Continues (prompt st, buff).

(** What the [read] at the top of the loop can come back with. *)
Inductive event : Type :=
  | Line (bytes : list ascii) (env : os)   (* these bytes were read *)
  | Signal (sig : Z) (zombies : list pid_t) (garbage : Z).
                       (* a signal was handled and [read] gave up with -1 *)

(** [read(fileno(stdin), buff, buffSize)] when [bytes] are available: at
    most [buffSize] of them land at the start of [buff]. *)
Definition read (bytes buff : list ascii) : Z * list ascii :=
  let got := take (Z.to_nat buffSize) bytes in
  (Z.of_nat (length got), got ++ drop (length got) buff).

(** The condition of the [while] loop. *)
Definition goes_on (r : Z) (st : shell) : bool :=
  (r >? 0) || negb (interrupted st =? 0).

(** [main] from the first [read] on, over the events of the run; the end
    of the list is end of input.  The result is the globals at exit and
    the pids [cleanup] killed. *)
Fixpoint main_loop (events : list event) (buff : list ascii) (st : shell)
  : outcome (shell * list pid_t) :=
  match events with
  | [] => run (cleanup st) (λ killed, Continues (st, killed))
  | Line bytes env :: rest =>
      let '(r, buff1) := read bytes buff in
      if goes_on r st then
        and_then (iteration r buff1 env st)
          (λ '(st', buff'), main_loop rest buff' st')
      else run (cleanup st) (λ killed, Continues (st, killed))
  | Signal sig zombies garbage :: rest =>
      run (sig_handler sig zombies garbage st) (λ '(st', _),
      if goes_on (-1) st' then
        and_then (iteration (-1) buff (Os 0 false []) st')
          (λ '(st'', buff'), main_loop rest buff' st'')
      else run (cleanup st') (λ killed, Continues (st', killed)))
  end.

Definition main (events : list event) (stack : list ascii)
  : outcome (shell * list pid_t) :=
  main_loop events (take (Z.to_nat buffSize) stack)
    (set_io initial 0 [SHELL_PROMPT]).

(** ** Vocabulary of the properties *)

(** The string a history slot points to, if it points to a live block. *)
Definition entry_text (st : shell) (slot : option nat) : option (list ascii) :=
  match slot with
  | Some p =>
      match strs st !! p with
      | Some (Some s) => Some s
      | _ => None
      end
  | None => None
  end.

(** The history array read through its pointers, in array order. *)
Definition texts (st : shell) : list (option (list ascii)) :=
  map (entry_text st) (history st).

(** The same, starting at the write cursor and wrapping around. *)
Definition chronological (st : shell) : list (option (list ascii)) :=
  drop (Z.to_nat (histInd st)) (texts st)
  ++ take (Z.to_nat (histInd st)) (texts st).

(** Well-formedness of the history: twenty slots, the cursor on one of
    them, every pointer to a live block, no block shared by two slots. *)
Record hist_inv (st : shell) : Prop := HistInv {
  hist_len : length (history st) = 20%nat;
  hist_ind : 0 ≤ histInd st < HISTORY_SIZE;
  hist_live : ∀ j p, history st !! j = Some (Some p) →
                ∃ s, strs st !! p = Some (Some s);
  hist_inj : ∀ j k p, history st !! j = Some (Some p) →
               history st !! k = Some (Some p) → j = k
}.

(** [recordcmd] called once per element, in order. *)
Fixpoint record_all (cmds : list (list ascii * Z)) (st : shell) : result shell :=
  match cmds with
  | [] => Done st
  | (cmd, sz) :: rest => st' ← recordcmd cmd sz st; record_all rest st'
  end.

(** The block [recordcmd] allocates is large enough for the string. *)
Definition fits (c : list ascii * Z) : Prop := strlen c.1 + 1 ≤ c.2.

(** The cursor positions [printHistory] goes through from [h]. *)
Definition cursors (h : Z) : list Z :=
  map (λ j, (h + Z.of_nat j) mod HISTORY_SIZE) (seq 0 20).

(** The indices of the history array. *)
Definition slots : list Z := map Z.of_nat (seq 0 20).

(** [st'] has the history of [st]: same array, cursor and blocks. *)
Definition same_hist (st st' : shell) : Prop :=
  history st' = history st ∧ histInd st' = histInd st ∧ strs st' = strs st.

(** A cursor position with the text its slot holds. *)
Definition slot_at (st : shell) (c : Z) : Z * option (list ascii) :=
  (c, default None (texts st !! Z.to_nat c)).

(** The argument vector and the [background] flag [execcmd] arrives at. *)
Definition argv_bg (cmd : list ascii) : result (list (list ascii) * Z) :=
  '(tokens, buf, background) ← parse cmd;
  argv ← argv_of buf tokens 0;
  Done (argv, background).

(** One call of a function of the shell that returns to its caller. *)
Inductive step : shell → shell → Prop :=
  | step_recordcmd cmd sz st st' :
      recordcmd cmd sz st = Done st' → step st st'
  | step_printHistory st st' :
      printHistory st = Done st' → step st st'
  | step_addChild pid st st' :
      addChild pid st = Done st' → step st st'
  | step_removeChild pid garbage st st' :
      removeChild pid garbage st = Done st' → step st st'
  | step_sig_handler sig zombies garbage st st' zombies' :
      sig_handler sig zombies garbage st = Done (st', zombies') → step st st'
  | step_execcmd cmd env st ret st' buf reports :
      execcmd cmd env st = Continues (ret, st', buf, reports) → step st st'
  | step_iteration r buff env st st' buff' :
      iteration r buff env st = Continues (st', buff') → step st st'.

(** The states the shell can be in between such calls. *)
Definition reachable (st : shell) : Prop := rtc step initial st.

(** What the first [numChildren] slots of [children] give when read the
    way [removeChild] and [cleanup] read them. *)
Definition tracked (st : shell) : list (result pid_t) :=
  map (deref (pids st)) (take (Z.to_nat (numChildren st)) (children st)).

(** Registry operations and their meaning on a mathematical set. *)
Inductive op : Set :=
  | Register (pid : pid_t)
  | Unregister (pid : pid_t).

Definition spec_apply (s : gset Z) (o : op) : gset Z :=
  match o with
  | Register pid => {[pid]} ∪ s
  | Unregister pid => s ∖ {[pid]}
  end.

Definition spec_registry (ops : list op) : gset Z := foldl spec_apply ∅ ops.

Fixpoint run_ops (garbage : Z) (ops : list op) (st : shell) : result shell :=
  match ops with
  | [] => Done st
  | Register pid :: rest => st' ← addChild pid st; run_ops garbage rest st'
  | Unregister pid :: rest =>
      st' ← removeChild pid garbage st; run_ops garbage rest st'
  end.

(** The registry tracks exactly the pids of [s]. *)
Definition tracks (st : shell) (s : gset Z) : Prop :=
  ∀ pid, Done pid ∈ tracked st ↔ pid ∈ s.

(** [addChild] called [n] times with the pids [first], [first+1], ... *)
Fixpoint register_many (n : nat) (first : pid_t) (st : shell) : result shell :=
  match n with
  | O => Done st
  | S n' => st' ← addChild first st; register_many n' (first + 1) st'
  end.

(** ** The start of [main] *)

(** Lines 36-39: the loop that installs [sig_handler]; the result lists
    the signal numbers [sigaction] is called with, in order. *)
Fixpoint install_loop (fuel : nat) (sig : Z) : result (list Z) :=
  if sig <? 32 then
    match fuel with
    | O => Timeout
    | S fuel' =>
        rest ← install_loop fuel' (sig + 1);
        Done (if negb (sig =? SIGQUIT) then sig :: rest else rest)
    end
  else Done [].

Definition install_handlers : result (list Z) := install_loop 32 0.

(** ** Vocabulary of the properties of lines of words *)

(** A byte that ends no token and no string. *)
Definition plain (c : ascii) : bool :=
  negb (Ascii.eqb c NUL) && negb (is_delim blanks c).

(** A non-empty run of such bytes. *)
Definition is_word (w : list ascii) : bool :=
  match w with
  | [] => false
  | _ => forallb plain w
  end.

(** What may follow the last word of a command: nothing, or a NUL and
    whatever the buffer holds after it. *)
Definition terminated (tl : list ascii) : bool :=
  match tl with
  | [] => true
  | c :: _ => Ascii.eqb c NUL
  end.

(** The words joined by the separator [sep]. *)
Fixpoint unwords (sep : ascii) (ws : list (list ascii)) : list ascii :=
  match ws with
  | [] => []
  | [w] => w
  | w :: ws' => w ++ sep :: unwords sep ws'
  end.

(** Where the words start in [unwords sep ws] placed at offset [base]. *)
Fixpoint offsets (base : nat) (ws : list (list ascii)) : list nat :=
  match ws with
  | [] => []
  | w :: ws' => base :: offsets (base + length w + 1) ws'
  end.

(** Successive stores [tokens[i] = p], [tokens[i+1] = ...]. *)
Fixpoint fill (i : nat) (ps : list nat) (tokens : list slot) : list slot :=
  match ps with
  | [] => tokens
  | p :: ps' => fill (S i) ps' (<[i := Tok p]> tokens)
  end.

(** One [strtok] call followed by the loop that fills [tokens]. *)
Definition scan (s : option nat) (delim : list ascii) (fuel : nat) (i : Z)
    (tokens : list slot) (buf : list ascii) (olds : nat)
  : result (Z * list slot * list ascii) :=
  let '(token, buf', olds') := strtok s delim buf olds in
  tokenize fuel i token tokens buf' olds'.

(** [addChild] called once per pid, in order. *)
Fixpoint register_all (new : list pid_t) (st : shell) : result shell :=
  match new with
  | [] => Done st
  | pid :: rest => st' ← addChild pid st; register_all rest st'
  end.

(** The number of blocks of an arena that have not been freed. *)
Definition live {A : Type} (h : list (option A)) : nat :=
  length (filter is_Some h).

(** * Properties *)

(** ** Arrays and blocks *)

Section MemoryFacts.
Context {A : Type}.
Implicit Types (arr : list A) (h : list (option A)).

Lemma load_in_range arr i :
  0 ≤ i < Z.of_nat (length arr) →
  ∃ v, arr !! Z.to_nat i = Some v ∧ load arr i = Done v.
Proof.
  intros Hi. unfold load.
  destruct (lookup_lt_is_Some_2 arr (Z.to_nat i)) as [v Hv]; [lia|].
  exists v. split; [done|].
  rewrite Hv.
  replace ((0 <=? i) && (i <? Z.of_nat (length arr))) with true; [done|].
  symmetry. apply andb_true_iff. lia.
Qed.

Lemma load_Done arr i v :
  load arr i = Done v →
  0 ≤ i < Z.of_nat (length arr) ∧ arr !! Z.to_nat i = Some v.
Proof.
  unfold load. destruct (_ && _) eqn:Hb; [|done].
  apply andb_true_iff in Hb.
  destruct (arr !! Z.to_nat i) eqn:Hl; [|done].
  intros [= ->]. split; [lia|done].
Qed.

Lemma store_in_range arr i v :
  0 ≤ i < Z.of_nat (length arr) →
  store arr i v = Done (<[Z.to_nat i := v]> arr).
Proof.
  intros Hi. unfold store.
  replace ((0 <=? i) && (i <? Z.of_nat (length arr))) with true; [done|].
  symmetry. apply andb_true_iff. lia.
Qed.

Lemma store_out_of_range arr i v :
  ¬ (0 ≤ i < Z.of_nat (length arr)) → store arr i v = Fault (OutOfBounds i).
Proof.
  intros Hi. unfold store.
  destruct (_ && _) eqn:Hb; [|done].
  apply andb_true_iff in Hb. lia.
Qed.

Lemma store_Done arr i v arr' :
  store arr i v = Done arr' →
  0 ≤ i < Z.of_nat (length arr) ∧ arr' = <[Z.to_nat i := v]> arr.
Proof.
  unfold store. destruct (_ && _) eqn:Hb; [|done].
  apply andb_true_iff in Hb. intros [= <-]. split; [lia|done].
Qed.

Lemma deref_live h a v : h !! a = Some (Some v) → deref h (Some a) = Done v.
Proof. intros H. unfold deref. by rewrite H. Qed.

Lemma free_live h a v :
  h !! a = Some (Some v) → free h (Some a) = Done (<[a := None]> h).
Proof. intros H. unfold free. by rewrite H. Qed.
End MemoryFacts.

(** ** The history buffer *)

Lemma advance_mod h :
  0 ≤ h < HISTORY_SIZE → advance h = (h + 1) mod HISTORY_SIZE.
Proof.
  unfold advance, HISTORY_SIZE. intros Hh.
  destruct (h + 1 >? 20 - 1) eqn:E.
  - assert (h = 19) as -> by lia. reflexivity.
  - rewrite Z.mod_small; lia.
Qed.

Lemma advance_range h :
  0 ≤ h < HISTORY_SIZE → 0 ≤ advance h < HISTORY_SIZE.
Proof.
  intros Hh. rewrite advance_mod by done.
  apply Z.mod_pos_bound. unfold HISTORY_SIZE. lia.
Qed.

Lemma hist_inv_initial : hist_inv initial.
Proof.
  split.
  - reflexivity.
  - unfold HISTORY_SIZE. simpl. lia.
  - intros j p H. apply lookup_replicate in H as [? _]. done.
  - intros j k p H. apply lookup_replicate in H as [? _]. done.
Qed.


Lemma free_after_malloc {A} (h : list (option A)) (old : option nat) (v : A) :
  (∀ q, old = Some q → ∃ s, h !! q = Some (Some s)) →
  ∃ h2, free (h ++ [Some v]) old = Done h2 ∧
    h2 !! length h = Some (Some v) ∧
    (∀ p s, h !! p = Some (Some s) → old ≠ Some p → h2 !! p = Some (Some s)).
Proof.
  intros Hold. destruct old as [q|].
  - destruct (Hold q eq_refl) as [s Hs].
    assert (q < length h)%nat as Hq by (by eapply lookup_lt_Some).
    exists (<[q := None]> (h ++ [Some v])). split; [|split].
    + eapply free_live. by rewrite lookup_app_l.
    + rewrite list_lookup_insert_ne by lia.
      by rewrite lookup_app_r, Nat.sub_diag.
    + intros p s' Hp Hne.
      rewrite list_lookup_insert_ne by congruence.
      rewrite lookup_app_l; [done|]. by eapply lookup_lt_Some.
  - exists (h ++ [Some v]). split; [done|]. split.
    + by rewrite lookup_app_r, Nat.sub_diag.
    + intros p s' Hp _. rewrite lookup_app_l; [done|]. by eapply lookup_lt_Some.
Qed.

Lemma recordcmd_spec cmd sz st :
  hist_inv st → strlen cmd + 1 ≤ sz →
  ∃ st', recordcmd cmd sz st = Done st' ∧ hist_inv st' ∧
    histInd st' = advance (histInd st) ∧
    texts st' = <[Z.to_nat (histInd st) := Some (cstring cmd)]> (texts st) ∧
    numChildren st' = numChildren st ∧ children st' = children st ∧
    pids st' = pids st ∧ interrupted st' = interrupted st ∧
    out st' = out st ∧ err st' = err st.
Proof.
  intros [Hlen Hind Hlive Hinj] Hfit.
  assert (0 ≤ histInd st < Z.of_nat (length (history st))) as Hin.
  { rewrite Hlen. unfold HISTORY_SIZE in Hind. lia. }
  destruct (load_in_range (history st) (histInd st) Hin) as (old & Hold & Hload).
  unfold recordcmd. rewrite Hload. cbn.
  destruct (Z.leb_spec (strlen cmd + 1) sz) as [_|?]; [|lia].
  destruct (free_after_malloc (strs st) old (cstring cmd))
    as (strs2 & Hfree & Hnew & Hkeep).
  { intros q ->. eauto. }
  rewrite Hfree, store_in_range by done. cbn.
  set (h := Z.to_nat (histInd st)) in *.
  assert (h < length (history st))%nat as Hh by lia.
  eexists. split; [reflexivity|].
  assert (∀ j p, j ≠ h → history st !! j = Some (Some p) →
            ∃ s, strs st !! p = Some (Some s) ∧ strs2 !! p = Some (Some s))
    as Hother.
  { intros j p Hj Hp. destruct (Hlive j p Hp) as [s Hs]. exists s.
    split; [done|]. apply Hkeep; [done|].
    intros ->. apply Hj. by eapply Hinj. }
  split; [split|]; cbn.
  - by rewrite length_insert.
  - by apply advance_range.
  - intros j p Hj. destruct (decide (j = h)) as [->|Hne].
    + rewrite list_lookup_insert_eq in Hj by done.
      injection Hj as <-. eauto.
    + rewrite list_lookup_insert_ne in Hj by done.
      destruct (Hother j p Hne Hj) as (s & _ & ?). eauto.
  - intros j k p Hj Hk.
    assert (∀ i, i ≠ h → history st !! i = Some (Some p) →
              p ≠ length (strs st)) as Hfresh.
    { intros i Hi Hp ->. destruct (Hlive _ _ Hp) as [s Hs].
      apply lookup_lt_Some in Hs. lia. }
    destruct (decide (j = h)) as [->|Hjh], (decide (k = h)) as [->|Hkh];
      [done|..].
    + rewrite list_lookup_insert_eq in Hj by done.
      rewrite list_lookup_insert_ne in Hk by done.
      injection Hj as <-. by destruct (Hfresh k Hkh Hk).
    + rewrite list_lookup_insert_eq in Hk by done.
      rewrite list_lookup_insert_ne in Hj by done.
      injection Hk as <-. by destruct (Hfresh j Hjh Hj).
    + rewrite list_lookup_insert_ne in Hj, Hk by done. by eapply Hinj.
  - split; [done|]. split; [|done].
    unfold texts; cbn. apply list_eq. intros j.
    destruct (decide (j = h)) as [->|Hne].
    + rewrite list_lookup_fmap, !list_lookup_insert_eq;
        rewrite ?length_map; [|done..].
      cbn. unfold entry_text; cbn. by rewrite Hnew.
    + rewrite list_lookup_insert_ne by done.
      rewrite !list_lookup_fmap, list_lookup_insert_ne by done.
      destruct (history st !! j) as [[p|]|] eqn:Hj; [|done..].
      cbn. unfold entry_text; cbn.
      destruct (Hother j p Hne Hj) as (s & -> & ->). done.
Qed.

Lemma cursor_range h k : 0 ≤ (h + k) mod HISTORY_SIZE < HISTORY_SIZE.
Proof. apply Z.mod_pos_bound. unfold HISTORY_SIZE. lia. Qed.

Lemma cursor_step h k :
  advance ((h + Z.of_nat k) mod HISTORY_SIZE)
  = (h + Z.of_nat (S k)) mod HISTORY_SIZE.
Proof.
  rewrite advance_mod by apply cursor_range.
  rewrite Zplus_mod_idemp_l. f_equal. lia.
Qed.

Lemma cursor_back h k :
  0 ≤ h < HISTORY_SIZE → (1 ≤ k ≤ 20)%nat →
  (h + Z.of_nat k) mod HISTORY_SIZE = h ↔ k = 20%nat.
Proof.
  unfold HISTORY_SIZE. intros Hh Hk. split.
  - intros Heq.
    pose proof (Z.div_mod (h + Z.of_nat k) 20 ltac:(lia)) as Hdm.
    rewrite Heq in Hdm.
    assert ((h + Z.of_nat k) `div` 20 = 1) by lia. lia.
  - intros ->. replace (h + Z.of_nat 20) with (h + 1 * 20) by lia.
    rewrite Z_mod_plus_full. apply Z.mod_small. lia.
Qed.

Lemma printHistory_loop_spec st :
  hist_inv st → ∀ m k, (k + m = 20)%nat → (1 ≤ m)%nat →
  printHistory_loop m ((histInd st + Z.of_nat k) mod HISTORY_SIZE) st
  = Done (map (λ j, slot_at st ((histInd st + Z.of_nat j) mod HISTORY_SIZE))
            (seq k m)).
Proof.
  intros [Hlen Hind Hlive Hinj]. induction m as [|m IH]; intros k Hkm Hm; [lia|].
  cbn [printHistory_loop seq map].
  set (c := (histInd st + Z.of_nat k) mod HISTORY_SIZE).
  pose proof (cursor_range (histInd st) (Z.of_nat k)) as Hc. fold c in Hc.
  destruct (load_in_range (history st) c) as (slot & Hslot & ->).
  { rewrite Hlen. unfold HISTORY_SIZE in Hc. lia. }
  assert (default None (texts st !! Z.to_nat c) = entry_text st slot) as Hline.
  { unfold texts. by rewrite list_lookup_fmap, Hslot. }
  unfold slot_at at 1. fold c. rewrite Hline.
  assert (∀ k : option (list ascii) → result (list (Z * option (list ascii))),
            (match slot with
             | Some p => deref (strs st) (Some p) ≫= λ s, Done (Some s)
             | None => Done None
             end ≫= k) = k (entry_text st slot)) as Hread.
  { intros f. destruct slot as [p|]; [|done].
    destruct (Hlive _ _ Hslot) as [s Hs].
    unfold entry_text. rewrite (deref_live _ _ _ Hs), Hs. done. }
  change (Done slot ≫= ?f) with (f slot). cbv beta. rewrite Hread.
  pose proof (cursor_step (histInd st) k) as Hadv. fold c in Hadv.
  rewrite !Hadv.
  destruct (Z.eqb_spec ((histInd st + Z.of_nat (S k)) mod HISTORY_SIZE)
              (histInd st)) as [Heq|Hne].
  - apply cursor_back in Heq; [|done|lia].
    assert (m = 0%nat) as -> by lia. done.
  - assert (S k ≠ 20%nat) as Hk.
    { intros Hk. apply Hne. apply cursor_back; [done|lia|done]. }
    rewrite IH by lia. done.
Qed.

Lemma printHistory_loop_trace st :
  hist_inv st →
  printHistory_loop (Z.to_nat HISTORY_SIZE) (histInd st) st
  = Done (map (slot_at st) (cursors (histInd st))).
Proof.
  intros Hinv. pose proof (hist_ind _ Hinv) as Hind.
  pose proof (printHistory_loop_spec st Hinv 20 0 eq_refl ltac:(lia)) as H.
  rewrite Z.add_0_r, Z.mod_small in H by done.
  change (Z.to_nat HISTORY_SIZE) with 20%nat. rewrite H.
  unfold cursors. by rewrite map_map.
Qed.

Lemma rotate_lookups {A} (d : A) (l : list A) (h : Z) :
  length l = 20%nat → 0 ≤ h < HISTORY_SIZE →
  map (λ c, default d (l !! Z.to_nat c)) (cursors h)
  = drop (Z.to_nat h) l ++ take (Z.to_nat h) l.
Proof.
  unfold HISTORY_SIZE. intros Hlen Hh. unfold cursors. rewrite map_map.
  apply list_eq. intros i. rewrite list_lookup_fmap.
  destruct (decide (i < 20)%nat) as [Hi|Hi].
  - rewrite lookup_seq_lt by done. cbn.
    destruct (decide (i < 20 - Z.to_nat h)%nat) as [Hlo|Hhi].
    + rewrite lookup_app_l by (rewrite length_drop; lia).
      rewrite lookup_drop, Z.mod_small by (unfold HISTORY_SIZE; lia).
      replace (Z.to_nat (h + Z.of_nat i)) with (Z.to_nat h + i)%nat by lia.
      destruct (lookup_lt_is_Some_2 l (Z.to_nat h + i)) as [v ->]; [lia|done].
    + rewrite lookup_app_r by (rewrite length_drop; lia).
      rewrite length_drop, lookup_take_lt by lia.
      assert ((h + Z.of_nat i) mod HISTORY_SIZE = h + Z.of_nat i - 20) as ->.
      { unfold HISTORY_SIZE. Z.div_mod_to_equations. lia. }
      replace (Z.to_nat (h + Z.of_nat i - 20))
        with (i - (length l - Z.to_nat h))%nat by lia.
      destruct (lookup_lt_is_Some_2 l (i - (length l - Z.to_nat h)))
        as [v ->]; [lia|done].
  - rewrite lookup_seq_ge by lia. cbn. symmetry.
    apply lookup_ge_None. rewrite length_app, length_drop, length_take. lia.
Qed.

Lemma texts_length st : length (texts st) = length (history st).
Proof. unfold texts. by rewrite length_map. Qed.

Lemma rotate_insert {A} (l : list A) (h : nat) (x : A) :
  length l = 20%nat → (h < 20)%nat →
  let h' := Z.to_nat (advance (Z.of_nat h)) in
  drop h' (<[h := x]> l) ++ take h' (<[h := x]> l)
  = drop 1 (drop h l ++ take h l) ++ [x].
Proof.
  intros Hlen Hh h'.
  rewrite insert_take_drop by lia.
  rewrite (drop_app_le (drop h l)) by (rewrite length_drop; lia).
  rewrite drop_drop.
  assert (length (take h l ++ [x]) = S h) as Hpre.
  { rewrite length_app, length_take. simpl. lia. }
  replace (take h l ++ x :: drop (S h) l)
    with ((take h l ++ [x]) ++ drop (S h) l) by (by rewrite <- app_assoc).
  destruct (decide (h = 19%nat)) as [->|Hne].
  - replace h' with 0%nat by done.
    rewrite (drop_ge l (S 19)), (drop_ge l (19 + 1)) by lia.
    simpl. by rewrite !app_nil_r.
  - replace h' with (S h).
    2:{ unfold h', advance, HISTORY_SIZE.
        destruct (Z.gtb_spec (Z.of_nat h + 1) (20 - 1)); lia. }
    rewrite drop_app_length', take_app_length' by done.
    rewrite Nat.add_1_r. by rewrite app_assoc.
Qed.

Lemma chronological_length st :
  hist_inv st → length (chronological st) = 20%nat.
Proof.
  intros [Hlen Hind _ _]. unfold chronological, HISTORY_SIZE in *.
  rewrite length_app, length_drop, length_take, texts_length. lia.
Qed.

Lemma chronological_record cmd sz st :
  hist_inv st → strlen cmd + 1 ≤ sz →
  ∃ st', recordcmd cmd sz st = Done st' ∧ hist_inv st' ∧
    chronological st' = drop 1 (chronological st) ++ [Some (cstring cmd)] ∧
    out st' = out st.
Proof.
  intros Hinv Hfit.
  destruct (recordcmd_spec cmd sz st Hinv Hfit)
    as (st' & Hrec & Hinv' & Hind' & Htexts & _ & _ & _ & _ & Hout & _).
  exists st'. split; [done|]. split; [done|]. split; [|done].
  destruct Hinv as [Hlen Hind _ _]. unfold HISTORY_SIZE in Hind.
  unfold chronological. rewrite Hind', Htexts.
  pose proof (rotate_insert (texts st) (Z.to_nat (histInd st))
                (Some (cstring cmd))) as Hrot.
  rewrite Z2Nat.id in Hrot by lia.
  apply Hrot; [by rewrite texts_length | lia].
Qed.

Lemma record_all_spec cmds : ∀ st,
  hist_inv st → Forall fits cmds →
  ∃ st', record_all cmds st = Done st' ∧ hist_inv st' ∧
    chronological st'
    = drop (length cmds)
        (chronological st ++ map (λ c, Some (cstring c.1)) cmds) ∧
    out st' = out st.
Proof.
  induction cmds as [|[cmd sz] cmds IH]; intros st Hinv Hfits.
  - exists st. simpl. by rewrite app_nil_r.
  - apply Forall_cons in Hfits as [Hfit Hfits].
    destruct (chronological_record cmd sz st Hinv Hfit)
      as (st1 & Hrec & Hinv1 & Hchrono & Hout1).
    destruct (IH st1 Hinv1 Hfits) as (st' & Hall & Hinv' & Hchrono' & Hout').
    exists st'. cbn [record_all]. rewrite Hrec. cbn.
    split; [done|]. split; [done|]. split; [|congruence].
    rewrite Hchrono', Hchrono.
    pose proof (chronological_length st Hinv) as Hlen.
    destruct (chronological st) as [|a t]; [done|].
    cbn. by rewrite <- app_assoc.
Qed.

Lemma omap_replicate_None {A} n : omap id (replicate n (@None A)) = [].
Proof. induction n; [done|]. done. Qed.

Lemma omap_map_Some {A B} (f : A → B) (l : list A) :
  omap id (map (λ x, Some (f x)) l) = map f l.
Proof. induction l as [|x l IH]; [done|]. cbn. by rewrite IH. Qed.

Lemma window {A B} (f : A → B) (l : list A) :
  omap id (drop (length l) (replicate 20 None ++ map (λ x, Some (f x)) l))
  = map f (drop (length l - 20) l).
Proof.
  rewrite drop_app, drop_replicate, length_replicate, omap_app.
  rewrite omap_replicate_None. cbn [app].
  change (map (λ x, Some (f x)) l) with ((λ x, Some (f x)) <$> l).
  rewrite <- fmap_drop. apply omap_map_Some.
Qed.

Lemma chronological_initial : chronological initial = replicate 20 None.
Proof. reflexivity. Qed.

Lemma printed_trace st :
  hist_inv st →
  printed (map (slot_at st) (cursors (histInd st))) = omap id (chronological st).
Proof.
  intros Hinv. unfold printed, chronological.
  rewrite <- (rotate_lookups None)
    by (rewrite ?texts_length; apply Hinv).
  generalize (cursors (histInd st)). intros cs.
  induction cs as [|c cs IH]; [done|].
  cbn. rewrite IH. done.
Qed.

(** C6: after any sequence of [recordcmd] calls (each with a block large
    enough for its line), [printHistory] writes a blank line and then
    exactly the last twenty lines recorded, oldest first, each followed by
    a newline; when at most twenty were recorded these are all of them. *)
Theorem history_prints_most_recent (cmds : list (list ascii * Z)) :
  Forall fits cmds →
  ∃ st st', record_all cmds initial = Done st ∧ printHistory st = Done st' ∧
    out st' = newline ::
      map println (map (λ c, cstring c.1) (drop (length cmds - 20) cmds)).
Proof.
  intros Hfits.
  destruct (record_all_spec cmds initial hist_inv_initial Hfits)
    as (st & Hall & Hinv & Hchrono & Hout).
  exists st. unfold printHistory.
  rewrite (printHistory_loop_trace st Hinv).
  eexists. split; [done|]. split; [reflexivity|]. cbn [out].
  rewrite Hout. cbn [out initial app]. f_equal. f_equal.
  rewrite (printed_trace st Hinv), Hchrono, chronological_initial.
  apply window.
Qed.

Lemma history_prints_most_recent_witness :
  ∃ st st',
    record_all (map (λ c, ([c], 2)) (text "abcdefghijklmnopqrstu")) initial
    = Done st ∧
    printHistory st = Done st' ∧
    out st' = newline ::
      map println (map (λ c, [c]) (text "bcdefghijklmnopqrstu")).
Proof.
  apply (history_prints_most_recent
           (map (λ c, ([c], 2)) (text "abcdefghijklmnopqrstu"))).
  repeat (apply Forall_cons; split; [by vm_compute|]). by apply Forall_nil.
Defined.

(** ** Inversion of the sequencing operators *)

Lemma bind_Done_inv {A B} (m : result A) (k : A → result B) (b : B) :
  m ≫= k = Done b → ∃ a, m = Done a ∧ k a = Done b.
Proof. destruct m; cbn; [eauto|done..]. Qed.

Lemma run_Continues_inv {A B} (r : result A) (k : A → outcome B) (b : B) :
  run r k = Continues b → ∃ a, r = Done a ∧ k a = Continues b.
Proof. destruct r; cbn; [eauto|done..]. Qed.

Lemma and_then_Continues_inv {A B} (o : outcome A) (k : A → outcome B) (b : B) :
  and_then o k = Continues b → ∃ a, o = Continues a ∧ k a = Continues b.
Proof. destruct o; cbn; [eauto|done..]. Qed.

Ltac invert_seq H :=
  first
    [ apply bind_Done_inv in H as (? & ? & H)
    | apply run_Continues_inv in H as (? & ? & H)
    | apply and_then_Continues_inv in H as (? & ? & H) ].

(** ** What leaves the history alone *)

Lemma same_hist_refl st : same_hist st st.
Proof. done. Qed.

Lemma same_hist_trans st1 st2 st3 :
  same_hist st1 st2 → same_hist st2 st3 → same_hist st1 st3.
Proof. unfold same_hist. intros (-> & -> & ->) (-> & -> & ->). done. Qed.

Lemma same_hist_texts st st' : same_hist st st' → texts st' = texts st.
Proof.
  intros (Hh & _ & Hs). unfold texts, entry_text. by rewrite Hh, Hs.
Qed.

Lemma same_hist_inv st st' : same_hist st st' → hist_inv st → hist_inv st'.
Proof.
  intros (Hh & Hi & Hs) [Hlen Hind Hlive Hinj].
  split; rewrite ?Hh, ?Hi, ?Hs; done.
Qed.

Lemma addChild_frame pid st st' : addChild pid st = Done st' → same_hist st st'.
Proof.
  unfold addChild. cbn. intros H. invert_seq H. by injection H as <-.
Qed.

Lemma removeChild_loop_frame fuel pid : ∀ i openIndex st st',
  removeChild_loop fuel pid i openIndex st = Done st' → same_hist st st'.
Proof.
  induction fuel as [|fuel IH]; intros i openIndex st st'; cbn.
  - destruct (i <? numChildren st); [done|]. by intros [= <-].
  - destruct (i <? numChildren st); [|by intros [= <-]].
    intros H. do 2 invert_seq H.
    destruct (_ =? pid).
    + invert_seq H. by apply IH in H.
    + destruct (negb _).
      * invert_seq H. by apply IH in H.
      * by apply IH in H.
Qed.

Lemma removeChild_frame pid garbage st st' :
  removeChild pid garbage st = Done st' → same_hist st st'.
Proof. apply removeChild_loop_frame. Qed.

Lemma printHistory_frame st st' : printHistory st = Done st' → same_hist st st'.
Proof.
  unfold printHistory. intros H. invert_seq H. by injection H as <-.
Qed.

Lemma reap_loop_frame garbage zombies : ∀ st st' zombies',
  reap_loop zombies garbage st = Done (st', zombies') → same_hist st st'.
Proof.
  induction zombies as [|z zombies IH]; intros st st' zombies'; cbn.
  - by intros [= <- _].
  - destruct (0 <? z); [|by intros [= <- _]].
    intros H. invert_seq H.
    eapply same_hist_trans; [by eapply removeChild_frame|by eapply IH].
Qed.

Lemma sig_handler_frame sig zombies garbage st st' zombies' :
  sig_handler sig zombies garbage st = Done (st', zombies') → same_hist st st'.
Proof.
  unfold sig_handler. intros H. invert_seq H.
  destruct x as [st1 z1]. injection H as <- _.
  apply (same_hist_trans _ st1); [|done].
  destruct (sig =? SIGINT).
  - invert_seq H0. injection H0 as <- _. by apply printHistory_frame.
  - destruct (sig =? SIGCHLD).
    + by eapply reap_loop_frame.
    + by injection H0 as <- _.
Qed.

Lemma execcmd_frame cmd env st ret st' buf reports :
  execcmd cmd env st = Continues (ret, st', buf, reports) →
  same_hist st st' ∧ out st' = out st.
Proof.
  unfold execcmd. intros H. invert_seq H.
  destruct x as [[tokens b] bg].
  destruct (0 >? fork_ret env); [by injection H as _ <- _ _|].
  destruct (0 =? fork_ret env).
  { invert_seq H. destruct x as [file argv]. by destruct (execvp_ok env). }
  destruct (bg =? 0).
  - destruct (wait_for _ _); [|done]. by injection H as _ <- _ _.
  - invert_seq H. injection H as _ <- _ _.
    split; [by eapply addChild_frame|].
    unfold addChild in H1. cbn in H1. invert_seq H1. by injection H1 as <-.
Qed.

Lemma recordcmd_fits cmd sz st st' :
  recordcmd cmd sz st = Done st' → strlen cmd + 1 ≤ sz.
Proof.
  unfold recordcmd. intros H. invert_seq H.
  destruct (Z.leb_spec (strlen cmd + 1) sz); done.
Qed.

Lemma recordcmd_histInd cmd sz st st' :
  recordcmd cmd sz st = Done st' → histInd st' = advance (histInd st).
Proof.
  unfold recordcmd. intros H. invert_seq H.
  destruct (_ <=? _); [|done]. cbn in H. do 2 invert_seq H.
  by injection H as <-.
Qed.

Lemma recordcmd_inv cmd sz st st' :
  hist_inv st → recordcmd cmd sz st = Done st' → hist_inv st'.
Proof.
  intros Hinv Hrec.
  destruct (recordcmd_spec cmd sz st Hinv (recordcmd_fits _ _ _ _ Hrec))
    as (st'' & Hrec' & Hinv' & _).
  congruence.
Qed.

Lemma prompt_frame st : same_hist st (prompt st).
Proof. done. Qed.

Lemma iteration_inv r buff env st st' buff' :
  hist_inv st → iteration r buff env st = Continues (st', buff') →
  hist_inv st'.
Proof.
  intros Hinv. unfold iteration.
  destruct (_ && _); [|intros [= <- _]; by apply (same_hist_inv st)].
  intros H. do 3 invert_seq H.
  destruct x1 as [[[ret st2] b] reports]. injection H as <- _.
  apply execcmd_frame in H2 as [Hframe _].
  eapply same_hist_inv; [apply prompt_frame|].
  eapply same_hist_inv; [done|]. by eapply recordcmd_inv.
Qed.

Lemma step_inv st st' : step st st' → hist_inv st → hist_inv st'.
Proof.
  intros Hstep Hinv. destruct Hstep.
  - by eapply recordcmd_inv.
  - eapply same_hist_inv; [by eapply printHistory_frame|done].
  - eapply same_hist_inv; [by eapply addChild_frame|done].
  - eapply same_hist_inv; [by eapply removeChild_frame|done].
  - eapply same_hist_inv; [by eapply sig_handler_frame|done].
  - eapply same_hist_inv; [by eapply execcmd_frame|done].
  - by eapply iteration_inv.
Qed.

Lemma reachable_inv st : reachable st → hist_inv st.
Proof.
  unfold reachable. revert st.
  apply (rtc_ind_r (λ st, hist_inv st) initial).
  - apply hist_inv_initial.
  - intros st st' _ Hstep Hinv. by eapply step_inv.
Qed.

Lemma cursors_rotation h :
  0 ≤ h < HISTORY_SIZE →
  cursors h = drop (Z.to_nat h) slots ++ take (Z.to_nat h) slots.
Proof.
  intros Hh. rewrite <- (rotate_lookups 0 slots h eq_refl Hh).
  rewrite <- (map_id (cursors h)) at 1.
  apply map_ext_in. intros c Hc.
  apply in_map_iff in Hc as (j & <- & _).
  pose proof (cursor_range h (Z.of_nat j)) as Hr.
  set (c := (h + Z.of_nat j) mod HISTORY_SIZE) in *. clearbody c.
  unfold HISTORY_SIZE in Hr. unfold slots.
  change (map Z.of_nat (seq 0 20)) with (Z.of_nat <$> seq 0 20).
  rewrite list_lookup_fmap, lookup_seq_lt by lia. cbn. lia.
Qed.

(** C10: the write cursor starts at 0 and is in [0, 20) in every state
    the shell reaches; [recordcmd] moves it one slot forward modulo 20;
    and from such a state [printHistory] returns with the write cursor
    where it was, having printed a blank line and then the lines of the
    slots its own cursor went through.  That cursor goes through
    [h, h+1, ...] modulo 20 from the write cursor [h]: always in range,
    over each of the twenty slots exactly once, stopping when the next
    position is [h] again, which is within the twenty turns of its loop. *)
Theorem histInd_stays_in_range :
  histInd initial = 0 ∧
  (∀ st, reachable st → 0 ≤ histInd st < HISTORY_SIZE) ∧
  (∀ cmd sz st st', reachable st → recordcmd cmd sz st = Done st' →
     histInd st' = (histInd st + 1) mod HISTORY_SIZE) ∧
  (∀ st, reachable st →
     ∃ trace st',
       printHistory st = Done st' ∧
       histInd st' = histInd st ∧
       out st' = out st ++ newline :: map println (printed trace) ∧
       trace = map (slot_at st) (cursors (histInd st)) ∧
       printHistory_loop (Z.to_nat HISTORY_SIZE) (histInd st) st = Done trace ∧
       map fst trace = cursors (histInd st) ∧
       Forall (λ c, 0 ≤ c < HISTORY_SIZE) (map fst trace) ∧
       map fst trace ≡ₚ slots ∧
       advance <$> last (map fst trace) = Some (histInd st)).
Proof.
  split; [done|]. split; [|split].
  - intros st Hreach. apply (hist_ind _ (reachable_inv _ Hreach)).
  - intros cmd sz st st' Hreach Hrec.
    rewrite (recordcmd_histInd _ _ _ _ Hrec).
    apply advance_mod, (hist_ind _ (reachable_inv _ Hreach)).
  - intros st Hreach. pose proof (reachable_inv _ Hreach) as Hinv.
    pose proof (hist_ind _ Hinv) as Hind.
    exists (map (slot_at st) (cursors (histInd st))).
    unfold printHistory. rewrite (printHistory_loop_trace st Hinv).
    eexists. split; [reflexivity|]. cbn [histInd out].
    split; [done|]. split; [done|]. split; [done|]. split; [done|].
    assert (map fst (map (slot_at st) (cursors (histInd st)))
            = cursors (histInd st)) as ->.
    { rewrite map_map. apply map_id. }
    split; [done|]. split; [|split].
    + apply Forall_forall. intros c Hc.
      apply list_elem_of_In, in_map_iff in Hc as (j & <- & _).
      apply cursor_range.
    + rewrite cursors_rotation by done.
      rewrite Permutation_app_comm. by rewrite take_drop.
    + unfold cursors. change (seq 0 20) with (seq 0 19 ++ [19%nat]).
      rewrite map_app. cbn [map]. rewrite last_snoc.
      cbn [fmap option_fmap option_map].
      rewrite cursor_step. f_equal. apply cursor_back; [done|lia|done].
Qed.

Lemma histInd_stays_in_range_witness :
  ∃ st, record_all [(text "ls", 3); (text "pwd", 4)] initial = Done st ∧
    0 ≤ histInd st < HISTORY_SIZE ∧
    ∃ trace st',
      printHistory st = Done st' ∧
      histInd st' = histInd st ∧
      out st' = out st ++ newline :: map println (printed trace) ∧
      trace = map (slot_at st) (cursors (histInd st)) ∧
      printHistory_loop (Z.to_nat HISTORY_SIZE) (histInd st) st = Done trace ∧
      map fst trace = cursors (histInd st) ∧
      Forall (λ c, 0 ≤ c < HISTORY_SIZE) (map fst trace) ∧
      map fst trace ≡ₚ slots ∧
      advance <$> last (map fst trace) = Some (histInd st).
Proof.
  eexists. split; [reflexivity|].
  destruct histInd_stays_in_range as (_ & Hrange & _ & Hprint).
  split; [apply Hrange | apply Hprint];
    (eapply rtc_l; [by eapply (step_recordcmd (text "ls") 3)|];
     eapply rtc_l; [by eapply (step_recordcmd (text "pwd") 4)|];
     apply rtc_refl).
Defined.

(** ** The line read and its copy in the history *)

Lemma strchr_line (c : ascii) (line rest : list ascii) : ∀ base,
  NUL ∉ line → c ∉ line →
  strchr (line ++ c :: rest) c base = Done (Some (base + length line)%nat).
Proof.
  induction line as [|x line IH]; intros base Hnul Hc; cbn.
  - rewrite Ascii.eqb_refl. do 2 f_equal. lia.
  - apply not_elem_of_cons in Hnul as [Hx0 Hnul].
    apply not_elem_of_cons in Hc as [Hxc Hc].
    destruct (Ascii.eqb_spec x c) as [->|_]; [done|].
    destruct (Ascii.eqb_spec x NUL) as [->|_]; [done|].
    rewrite IH by done. do 2 f_equal. lia.
Qed.

Lemma chomp_line (line rest : list ascii) :
  NUL ∉ line → "010"%char ∉ line →
  chomp (line ++ "010"%char :: rest) = Done (line ++ NUL :: rest).
Proof.
  intros Hnul Hnl. unfold chomp. rewrite strchr_line by done. cbn.
  rewrite store_in_range by (rewrite length_app; cbn; lia).
  rewrite Nat2Z.id.
  rewrite insert_app_r_alt, Nat.sub_diag by done. done.
Qed.

Lemma cstring_line (line rest : list ascii) :
  NUL ∉ line → cstring (line ++ NUL :: rest) = line.
Proof.
  induction line as [|x line IH]; intros Hnul; cbn; [done|].
  apply not_elem_of_cons in Hnul as [Hx0 Hnul].
  destruct (Ascii.eqb_spec x NUL) as [->|_]; [done|]. by rewrite IH.
Qed.

(** C9: when [read] returns [r] bytes that start with a non-empty line
    and its newline, with no NUL inside, and [interrupted] is clear,
    [main] first records the line: the history slot under the cursor
    then reads back as the line without its newline and the other slots
    read as before, so nothing that followed the newline in the same
    read is recorded.  [execcmd] runs on the buffer only after that, and
    whenever it returns to the loop the history still reads that way,
    whatever tokenizing has written into the buffer.  With
    [interrupted] set the same read is dropped: the iteration only
    prints the prompt and the history reads as before. *)
Theorem history_entry_is_line_as_entered
    (line rest : list ascii) (r : Z) (env : os) (st : shell) :
  hist_inv st →
  line ≠ [] → NUL ∉ line → "010"%char ∉ line →
  Z.of_nat (length line) + 1 ≤ r →
  let buff := line ++ "010"%char :: rest in
  let cmd := line ++ NUL :: rest in
  let h := Z.to_nat (histInd st) in
  (interrupted st = 0 →
   ∃ st1,
     recordcmd cmd r st = Done st1 ∧
     texts st1 !! h = Some (Some line) ∧
     iteration r buff env st
     = and_then (execcmd cmd env st1)
         (λ '(_, st2, cmd', _), Continues (prompt st2, cmd')) ∧
     ∀ st2 buff',
       iteration r buff env st = Continues (st2, buff') →
       texts st2 !! h = Some (Some line) ∧
       ∀ j, j ≠ h → texts st2 !! j = texts st !! j) ∧
  (interrupted st ≠ 0 →
   iteration r buff env st = Continues (prompt st, buff) ∧
   texts (prompt st) = texts st).
Proof.
  intros Hinv Hne Hnul Hnl Hr buff cmd h. split.
  - intros Hint.
    assert (strlen cmd + 1 ≤ r) as Hfit.
    { unfold strlen, cmd. rewrite cstring_line by done. lia. }
    destruct (recordcmd_spec cmd r st Hinv Hfit)
      as (st1 & Hrec & Hinv1 & _ & Htexts & _).
    assert (cstring cmd = line) as Hcmd.
    { unfold cmd. by rewrite cstring_line. }
    rewrite Hcmd in Htexts. fold h in Htexts.
    assert (texts st1 !! h = Some (Some line)) as Hslot.
    { rewrite Htexts. rewrite list_lookup_insert_eq; [done|].
      rewrite texts_length, (hist_len _ Hinv).
      pose proof (hist_ind _ Hinv) as Hh. unfold HISTORY_SIZE in Hh.
      unfold h. lia. }
    assert (iteration r buff env st
            = and_then (execcmd cmd env st1)
                (λ '(_, st2, cmd', _), Continues (prompt st2, cmd'))) as Hiter.
    { unfold iteration. rewrite Hint.
      assert ((r >? 1) = true) as ->.
      { apply Z.gtb_lt. destruct line; [done|]. cbn [length] in Hr. lia. }
      cbn [andb Z.eqb]. unfold buff. rewrite chomp_line by done.
      cbn [run]. fold cmd. rewrite Hrec. done. }
    exists st1. split; [done|]. split; [done|]. split; [done|].
    intros st2 buff'. rewrite Hiter. intros H. invert_seq H.
    destruct x as [[[ret st'] b] reports]. injection H as <- _.
    apply execcmd_frame in H0 as [Hframe _].
    rewrite (same_hist_texts st' (prompt st') (prompt_frame st')).
    rewrite (same_hist_texts st1 st' Hframe).
    split; [done|]. intros j Hj. rewrite Htexts.
    by apply list_lookup_insert_ne.
  - intros Hint. unfold iteration.
    destruct (Z.eqb_spec (interrupted st) 0) as [|_]; [done|].
    rewrite andb_false_r. split; [done|].
    apply same_hist_texts, prompt_frame.
Qed.

Lemma history_entry_is_line_as_entered_witness :
  (∃ st1,
     recordcmd (text "ls -l" ++ NUL :: text "junk") 6 initial = Done st1 ∧
     texts st1 !! 0%nat = Some (Some (text "ls -l")) ∧
     iteration 6 (text "ls -l" ++ "010"%char :: text "junk") (Os 5 true [5])
       initial
     = and_then
         (execcmd (text "ls -l" ++ NUL :: text "junk") (Os 5 true [5]) st1)
         (λ '(_, st2, cmd', _), Continues (prompt st2, cmd')) ∧
     ∀ st2 buff',
       iteration 6 (text "ls -l" ++ "010"%char :: text "junk") (Os 5 true [5])
         initial = Continues (st2, buff') →
       texts st2 !! 0%nat = Some (Some (text "ls -l")) ∧
       ∀ j, j ≠ 0%nat → texts st2 !! j = texts initial !! j) ∧
  (iteration 6 (text "ls -l" ++ "010"%char :: text "junk") (Os 5 true [5])
     (set_io initial 1 [])
   = Continues (prompt (set_io initial 1 []),
                text "ls -l" ++ "010"%char :: text "junk") ∧
   texts (prompt (set_io initial 1 [])) = texts (set_io initial 1 [])).
Proof.
  split.
  - apply (history_entry_is_line_as_entered (text "ls -l") (text "junk") 6
             (Os 5 true [5]) initial).
    + apply hist_inv_initial.
    + discriminate.
    + apply (bool_decide_unpack _). by vm_compute.
    + apply (bool_decide_unpack _). by vm_compute.
    + by vm_compute.
    + reflexivity.
  - apply (history_entry_is_line_as_entered (text "ls -l") (text "junk") 6
             (Os 5 true [5]) (set_io initial 1 [])).
    + apply (same_hist_inv initial); [done|apply hist_inv_initial].
    + discriminate.
    + apply (bool_decide_unpack _). by vm_compute.
    + apply (bool_decide_unpack _). by vm_compute.
    + by vm_compute.
    + discriminate.
Defined.

(** C9, where the claim as written fails.  Two lines that arrive in one
    [read]: at exit the history holds the first only, the second was
    entered and never recorded.  A line that arrives with [interrupted]
    set (the handler ran after the flag was cleared and before [read]
    returned): the iteration records nothing. *)
Lemma line_entered_not_recorded :
  (∃ st,
     main [Line (text "ls" ++ newline ++ text "pwd" ++ newline)
             (Os 5 true [5])]
       (replicate 64 "x"%char)
     = Continues (st, []) ∧
     omap id (texts st) = [text "ls"]) ∧
  (∃ st1,
     sig_handler 10 [] 0 initial = Done (st1, []) ∧
     iteration 3 (text "ls" ++ newline) (Os 5 true [5]) st1
     = Continues (prompt st1, text "ls" ++ newline) ∧
     omap id (texts (prompt st1)) = []).
Proof.
  split.
  - eexists. split; reflexivity.
  - eexists. split; [reflexivity|]. split; reflexivity.
Qed.

(** What the same iteration leaves in the buffer: the separator after
    [ls] is now a NUL, yet the recorded line has its blank. *)
Example iteration_overwrites_buffer :
  ∃ st2,
    iteration 6 (text "ls -l" ++ "010"%char :: text "junk") (Os 5 true [5])
      initial
    = Continues (st2, text "ls" ++ NUL :: text "-l" ++ NUL :: text "junk") ∧
    chronological st2 !! 19%nat = Some (Some (text "ls -l")).
Proof. eexists. split; reflexivity. Qed.

(** ** Waiting for the foreground child *)

Lemma wait_for_found pid others rest :
  pid ∉ others → wait_for pid (others ++ pid :: rest) = Some rest.
Proof.
  induction others as [|r others IH]; intros Hnot; cbn.
  - by rewrite Z.eqb_refl.
  - apply not_elem_of_cons in Hnot as [Hne Hnot].
    destruct (Z.eqb_spec pid r) as [->|_]; [done|]. cbn. by apply IH.
Qed.

Lemma wait_for_Some pid reports rest :
  wait_for pid reports = Some rest →
  ∃ others, reports = others ++ pid :: rest ∧ pid ∉ others.
Proof.
  induction reports as [|r reports IH]; cbn; [done|].
  destruct (Z.eqb_spec pid r) as [->|Hne]; cbn.
  - intros [= ->]. exists []. split; [done|]. apply not_elem_of_nil.
  - intros H. destruct (IH H) as (others & -> & Hnot).
    exists (r :: others). split; [done|].
    apply not_elem_of_cons. done.
Qed.

Lemma wait_for_None pid reports :
  pid ∉ reports → wait_for pid reports = None.
Proof.
  induction reports as [|r reports IH]; intros Hnot; cbn; [done|].
  apply not_elem_of_cons in Hnot as [Hne Hnot].
  destruct (Z.eqb_spec pid r) as [->|_]; [done|]. cbn. by apply IH.
Qed.

Lemma addChild_room pid st :
  0 ≤ numChildren st < Z.of_nat (length (children st)) →
  ∃ st', addChild pid st = Done st' ∧
    numChildren st' = numChildren st + 1 ∧
    tracked st' !! Z.to_nat (numChildren st) = Some (Done pid).
Proof.
  intros Hroom. unfold addChild. cbn.
  rewrite store_in_range by done. cbn.
  eexists. split; [reflexivity|]. split; [done|].
  unfold tracked. cbn [numChildren children pids].
  rewrite list_lookup_fmap, lookup_take_lt by lia.
  rewrite list_lookup_insert_eq by lia. cbn.
  by rewrite lookup_app_r, Nat.sub_diag.
Qed.

Lemma addChild_full pid st :
  numChildren st = Z.of_nat (length (children st)) →
  addChild pid st = Fault (OutOfBounds (numChildren st)).
Proof.
  intros Hfull. unfold addChild. cbn.
  rewrite store_out_of_range by lia. done.
Qed.

(** C8: once the line is parsed and [fork] has returned the child's pid,
    a foreground command makes [execcmd] return exactly when [wait] has
    reported that pid, every report before it being some other value and
    dropped, and it stays in the loop as long as the pid is not reported;
    a background command consumes no [wait] report: [execcmd] is
    [addChild] followed by [return 1], which with a free slot in
    [children] leaves the pid in the first free slot. *)
Theorem foreground_waits_for_its_child
    (cmd : list ascii) (env : os) (st : shell)
    (tokens : list slot) (buf : list ascii) (background : Z) :
  parse cmd = Done (tokens, buf, background) → 0 < fork_ret env →
  let pid := fork_ret env in
  (background = 0 →
     (∀ ret st' buf' rest,
        execcmd cmd env st = Continues (ret, st', buf', rest) ↔
        ret = 1 ∧ st' = st ∧ buf' = buf ∧
        ∃ others, wait_reports env = others ++ pid :: rest ∧ pid ∉ others) ∧
     (pid ∉ wait_reports env → execcmd cmd env st = Blocked)) ∧
  (background ≠ 0 →
     execcmd cmd env st
     = run (addChild pid st) (λ st', Continues (1, st', buf, wait_reports env)) ∧
     (0 ≤ numChildren st < Z.of_nat (length (children st)) →
      ∃ st', execcmd cmd env st = Continues (1, st', buf, wait_reports env) ∧
        numChildren st' = numChildren st + 1 ∧
        tracked st' !! Z.to_nat (numChildren st) = Some (Done pid))).
Proof.
  intros Hparse Hpid pid. unfold execcmd. rewrite Hparse. cbn [run].
  fold pid.
  assert ((0 >? pid) = false) as -> by lia.
  assert ((0 =? pid) = false) as -> by lia.
  split.
  - intros ->. cbn [Z.eqb]. split.
    + intros ret st' buf' rest. split.
      * destruct (wait_for pid (wait_reports env)) as [rest'|] eqn:Hwait; [|done].
        intros [= <- <- <- <-]. apply wait_for_Some in Hwait. done.
      * intros (-> & -> & -> & others & -> & Hnot).
        by rewrite wait_for_found.
    + intros Hnot. by rewrite wait_for_None.
  - intros Hbg. assert ((background =? 0) = false) as -> by lia.
    split; [done|]. intros Hroom.
    destruct (addChild_room pid st Hroom) as (st' & -> & Hn & Htracked).
    exists st'. done.
Qed.

Lemma foreground_waits_for_its_child_witness :
  ((∀ ret st' buf' rest,
      execcmd (text "ls") (Os 5 true [3; -1; 5; 7]) initial
      = Continues (ret, st', buf', rest) ↔
      ret = 1 ∧ st' = initial ∧ buf' = text "ls" ∧
      ∃ others, [3; -1; 5; 7] = others ++ 5 :: rest ∧ 5 ∉ others) ∧
   (5 ∉ [3; -1; 5; 7] →
    execcmd (text "ls") (Os 5 true [3; -1; 5; 7]) initial = Blocked)) ∧
  (∃ st', execcmd (text "ls &") (Os 5 true [3]) initial
          = Continues (1, st', text "ls" ++ NUL :: text "&", [3]) ∧
     numChildren st' = 1 ∧ tracked st' !! 0%nat = Some (Done 5)).
Proof.
  split.
  - edestruct (foreground_waits_for_its_child (text "ls")
                 (Os 5 true [3; -1; 5; 7]) initial) as [Hfg _];
      [reflexivity|reflexivity|].
    by apply Hfg.
  - edestruct (foreground_waits_for_its_child (text "ls &")
                 (Os 5 true [3]) initial) as [_ Hbg];
      [reflexivity|reflexivity|].
    apply Hbg; [discriminate|]. cbn. lia.
Defined.

(** ** The child registry *)

Lemma removeChild_garbage pid garbage st p v :
  garbage ≠ 0 → 0 < numChildren st →
  load (children st) 0 = Done p → deref (pids st) p = Done v → v ≠ pid →
  removeChild pid garbage st = Fault (OutOfBounds (-1)).
Proof.
  intros Hg Hn Hp Hv Hne. unfold removeChild.
  destruct (Z.to_nat (numChildren st)) as [|fuel] eqn:Hfuel; [lia|].
  cbn [removeChild_loop].
  assert ((0 <? numChildren st) = true) as -> by lia.
  rewrite Hp. cbn. rewrite Hv. cbn.
  assert ((v =? pid) = false) as -> by lia.
  assert ((garbage =? 0) = false) as -> by lia.
  cbn. unfold store. cbn. done.
Qed.

(** From [i] on, with [openIndex] zero and no tracked cell holding [pid],
    the loop of [removeChild] changes nothing. *)
Lemma removeChild_loop_idle pid fuel : ∀ i st,
  0 ≤ i → numChildren st ≤ Z.of_nat (length (children st)) →
  (∀ j q, i ≤ j < numChildren st → children st !! Z.to_nat j = Some q →
     ∃ v, deref (pids st) q = Done v ∧ v ≠ pid) →
  (Z.to_nat (numChildren st - i) ≤ fuel)%nat →
  removeChild_loop fuel pid i 0 st = Done st.
Proof.
  induction fuel as [|fuel IH]; intros i st Hi Hn Hcells Hfuel.
  - cbn. assert ((i <? numChildren st) = false) as -> by lia. done.
  - cbn [removeChild_loop].
    destruct (Z.ltb_spec i (numChildren st)) as [Hlt|_]; [|done].
    destruct (load_in_range (children st) i) as (q & Hq & ->); [lia|].
    destruct (Hcells i q ltac:(lia) Hq) as (v & Hv & Hne).
    cbn. rewrite Hv. cbn.
    assert ((v =? pid) = false) as -> by lia. cbn.
    apply IH; [lia|done| |lia].
    intros j q' Hj. apply Hcells. lia.
Qed.

(** With [openIndex] zero on entry, removing a pid that no tracked cell
    holds changes nothing. *)
Lemma removeChild_absent pid st :
  numChildren st ≤ Z.of_nat (length (children st)) →
  (∀ j q, 0 ≤ j < numChildren st → children st !! Z.to_nat j = Some q →
     ∃ v, deref (pids st) q = Done v ∧ v ≠ pid) →
  removeChild pid 0 st = Done st.
Proof.
  intros Hn Hcells. apply removeChild_loop_idle; [done|done|done|lia].
Qed.

(** Removing the pid held by slot 0 moves nothing, whatever [openIndex]
    held on entry: the cell is freed and [numChildren] decremented, the
    array is left as it was.  With two or more children tracked, slot 0
    then holds a dangling pointer and the last child is out of reach. *)
Lemma removeChild_first pid garbage st p :
  0 < numChildren st ≤ Z.of_nat (length (children st)) →
  children st !! 0%nat = Some (Some p) →
  pids st !! p = Some (Some pid) →
  (∀ j q, 1 ≤ j < numChildren st - 1 → children st !! Z.to_nat j = Some q →
     q ≠ Some p ∧ ∃ v, deref (pids st) q = Done v ∧ v ≠ pid) →
  removeChild pid garbage st
  = Done (set_registry st (numChildren st - 1) (children st)
            (<[p := None]> (pids st))).
Proof.
  intros Hn Hp Hcell Hothers. unfold removeChild.
  destruct (Z.to_nat (numChildren st)) as [|fuel] eqn:Hfuel; [lia|].
  cbn [removeChild_loop].
  assert ((0 <? numChildren st) = true) as -> by lia.
  destruct (load_in_range (children st) 0) as (q & Hq & ->); [lia|].
  change (Z.to_nat 0) with 0%nat in Hq. rewrite Hp in Hq. injection Hq as <-.
  cbn. rewrite Hcell. cbn. rewrite Z.eqb_refl.
  apply removeChild_loop_idle; cbn [numChildren children pids set_registry];
    [lia|lia| |lia].
  intros j q Hj Hq. destruct (Hothers j q Hj Hq) as (Hqp & v & Hv & Hne).
  exists v. split; [|done].
  destruct q as [a|]; [|done]. cbn in *.
  rewrite list_lookup_insert_ne by congruence. done.
Qed.

(** C1: registering 101, 102 and 103 and then unregistering 101 leaves
    [numChildren] at 2 with the first two slots unchanged: slot 0 still
    points at the freed cell of pid 101 and pid 103, in slot 2, is no
    longer among the tracked slots, whatever [openIndex] held on entry.
    The set the four operations denote is {102, 103}. *)
Theorem removeChild_loses_a_child (garbage : Z) :
  let ops := [Register 101; Register 102; Register 103; Unregister 101] in
  ∃ st, run_ops garbage ops initial = Done st ∧
    numChildren st = 2 ∧
    tracked st = [Fault UseAfterFree; Done 102] ∧
    103 ∈ spec_registry ops ∧
    ¬ tracks st (spec_registry ops).
Proof.
  intros ops. eexists. split; [reflexivity|]. split; [reflexivity|].
  split; [reflexivity|].
  assert (103 ∈ spec_registry ops) as H3.
  { unfold spec_registry, ops. cbn. set_solver. }
  split; [done|]. intros Htracks.
  apply Htracks in H3. vm_compute in H3.
  apply list_elem_of_In in H3. cbn in H3. by destruct H3 as [?|[?|[]]].
Qed.

(** C3: thirty-two calls of [addChild] fill [children] and succeed; the
    thirty-third stores at index 32 of the 32-element array. *)
Theorem addChild_stores_past_the_array :
  length (children initial) = 32%nat ∧
  (∃ st, register_many 32 100 initial = Done st ∧ numChildren st = 32 ∧
     tracked st = map (λ k, Done (Z.of_nat k)) (seq 100 32)) ∧
  register_many 33 100 initial = Fault (OutOfBounds 32).
Proof.
  split; [reflexivity|]. split; [|by vm_compute].
  eexists. split; [by vm_compute|]. split; [reflexivity|]. by vm_compute.
Qed.

(** ** The signal handler *)

Lemma reap_loop_drains garbage zombies : ∀ st st' zombies',
  Forall (λ z, 0 < z) zombies →
  reap_loop zombies garbage st = Done (st', zombies') → zombies' = [].
Proof.
  induction zombies as [|z zombies IH]; intros st st' zombies' Hpos; cbn.
  - by intros [= _ <-].
  - apply Forall_cons in Hpos as [Hz Hpos].
    assert ((0 <? z) = true) as -> by lia.
    intros H. invert_seq H. by eapply IH.
Qed.

(** C7: with children 101 and 102 registered and child 101 exited, the
    handler for SIGCHLD reaps 101 and calls [removeChild]; on return the
    single tracked slot still points at the freed cell of child 101 and
    child 102 is not tracked any more, so that [cleanup] reads freed
    memory. *)
Theorem sig_handler_keeps_reaped_child (garbage : Z) :
  ∃ st st',
    run_ops garbage [Register 101; Register 102] initial = Done st ∧
    tracked st = [Done 101; Done 102] ∧
    sig_handler SIGCHLD [101] garbage st = Done (st', []) ∧
    numChildren st' = 1 ∧
    tracked st' = [Fault UseAfterFree] ∧
    cleanup st' = Fault UseAfterFree.
Proof.
  do 2 eexists. split; [reflexivity|]. split; [reflexivity|].
  split; [reflexivity|]. split; [reflexivity|]. split; reflexivity.
Qed.

(** ** The dispatcher *)

Lemma strtok_buf_length s delim buf olds token buf' olds' :
  strtok s delim buf olds = (token, buf', olds') → length buf' = length buf.
Proof.
  unfold strtok. repeat case_match; intros [= _ <- _]; [done..|].
  by rewrite length_insert.
Qed.

(** The loop that fills [tokens] ends within [MAX_ARGS] iterations, every
    store it makes is inside the array, and it leaves [i] at most
    [MAX_ARGS]. *)
Lemma tokenize_in_bounds fuel : ∀ i token tokens buf olds,
  0 ≤ i ≤ MAX_ARGS → length tokens = Z.to_nat MAX_ARGS →
  (Z.to_nat (MAX_ARGS - i) ≤ fuel)%nat →
  ∃ i' tokens' buf',
    tokenize fuel i token tokens buf olds = Done (i', tokens', buf') ∧
    i ≤ i' ≤ MAX_ARGS ∧ length tokens' = Z.to_nat MAX_ARGS ∧
    length buf' = length buf.
Proof.
  unfold MAX_ARGS.
  induction fuel as [|fuel IH]; intros i token tokens buf olds Hi Hlen Hfuel.
  - assert (i = 10) as -> by lia.
    exists 10, tokens, buf. by destruct token.
  - destruct token as [p|]; cbn [tokenize]; [|exists i, tokens, buf; split; [done|lia]].
    destruct (Z.ltb_spec i MAX_ARGS) as [Hlt|Hge]; unfold MAX_ARGS in *;
      [|exists i, tokens, buf; split; [done|lia]].
    rewrite store_in_range by lia. cbn.
    destruct (strtok None space buf olds) as [[token' buf1] olds'] eqn:Htok.
    apply strtok_buf_length in Htok.
    destruct (IH (i + 1) token' (<[Z.to_nat i := Tok p]> tokens) buf1 olds')
      as (i' & tokens' & buf' & -> & Hi' & Hlen' & Hbuf');
      [lia|by rewrite length_insert|lia|].
    exists i', tokens', buf'. split; [done|]. split; [lia|]. split; [done|].
    congruence.
Qed.

(** So the NULL that ends the arguments is the only store of [split]
    that can leave the array, and it does when the loop stopped at
    [MAX_ARGS]. *)
Lemma split_fault cmd f :
  split cmd = Fault f → f = OutOfBounds MAX_ARGS.
Proof.
  unfold split.
  destruct (strtok (Some 0%nat) blanks cmd 0) as [[token buf] olds].
  destruct (tokenize_in_bounds (Z.to_nat MAX_ARGS) 0 token
              (replicate (Z.to_nat MAX_ARGS) Uninit) buf olds)
    as (i & tokens & buf' & -> & Hi & Hlen & _);
    [unfold MAX_ARGS; lia|by rewrite length_replicate|lia|].
  cbn. unfold store.
  destruct (_ && _) eqn:Hb; [done|]. cbn. intros [= <-].
  f_equal. apply andb_false_iff in Hb. lia.
Qed.

Lemma strspn_all delim (m : list ascii) :
  Forall (λ c, is_delim delim c = true) m → strspn delim m = length m.
Proof.
  induction m as [|c m IH]; intros Hall; cbn; [done|].
  apply Forall_cons in Hall as [-> Hall]. by rewrite IH.
Qed.

Lemma strtok_blank delim (cmd : list ascii) :
  Forall (λ c, is_delim delim c = true) cmd →
  strtok (Some 0%nat) delim cmd 0 = (None, cmd, length cmd).
Proof.
  intros Hall. unfold strtok.
  change (default 0%nat (Some 0%nat)) with 0%nat.
  rewrite drop_0, strspn_all, Nat.add_0_l by done.
  unfold byte_at. by rewrite (lookup_ge_None_2 cmd (length cmd)) by lia.
Qed.

(** A line of nothing but blanks gives no token: [tokens[0]] is NULL and
    the test for the marker reads through it. *)
Lemma execcmd_blank cmd env st :
  Forall (λ c, is_delim blanks c = true) cmd →
  execcmd cmd env st = Crashed NullDeref.
Proof.
  intros Hall. unfold execcmd, parse, split.
  by rewrite strtok_blank.
Qed.

(** C2: the attached marker is looked for on [tokens[0]] only.  With
    [sleep 10&] the command runs in the foreground with [10&] as its
    argument; [sleep5&] and [sleep 10 &] run in the background with the
    marker removed, and so does [sleep& 10]. *)
Theorem marker_sought_on_first_token :
  argv_bg (text "sleep 10&") = Done ([text "sleep"; text "10&"], 0) ∧
  argv_bg (text "sleep5&") = Done ([text "sleep5"], 1) ∧
  argv_bg (text "sleep 10 &") = Done ([text "sleep"; text "10"], 1) ∧
  argv_bg (text "sleep& 10") = Done ([text "sleep"; text "10"], 1) ∧
  execcmd (text "sleep 10&") (Os 7 true [7]) initial
  = Continues (1, initial, text "sleep" ++ NUL :: text "10&", []).
Proof. repeat split; reflexivity. Qed.

(** C4: nine tokens are split and passed on; with ten the loop stops at
    [i = MAX_ARGS] and the NULL that ends the arguments is stored at
    [tokens[10]], one past the array; an eleventh token is dropped by
    the loop but the store is the same. *)
Theorem tokens_terminator_out_of_bounds :
  argv_bg (text "a b c d e f g h i")
  = Done (map (λ c, [c]) (text "abcdefghi"), 0) ∧
  split (text "a b c d e f g h i j") = Fault (OutOfBounds MAX_ARGS) ∧
  split (text "a b c d e f g h i j k") = Fault (OutOfBounds MAX_ARGS) ∧
  ∀ env st,
    execcmd (text "a b c d e f g h i j") env st = Crashed (OutOfBounds 10).
Proof. repeat split; reflexivity. Qed.

(** C5: a bare newline ([read] returns 1) is skipped by [main]: the
    iteration only prints the prompt.  A line holding one blank and the
    newline ([read] returns 2) is recorded and handed to [execcmd], which
    reads through the NULL in [tokens[0]] before any [fork]. *)
Theorem blank_line_reads_through_null :
  (∀ buff env st, iteration 1 buff env st = Continues (prompt st, buff)) ∧
  (∀ env st, execcmd (text " ") env st = Crashed NullDeref) ∧
  (∀ rest env,
     iteration 2 (" "%char :: "010"%char :: rest) env initial
     = Crashed NullDeref).
Proof.
  split; [intros; reflexivity|]. split.
  - intros env st. apply execcmd_blank. by repeat constructor.
  - intros rest env.
    assert (chomp (" "%char :: "010"%char :: rest)
            = Done (" "%char :: NUL :: rest)) as Hchomp.
    { apply (chomp_line [" "%char] rest); apply (bool_decide_unpack _);
        by vm_compute. }
    unfold iteration. rewrite Hchomp. reflexivity.
Qed.

(** ** A whole run *)

(** One background command, an interrupt, a bare newline, end of input:
    the child is still registered at exit and [cleanup] kills it. *)
Example main_kills_background_child :
  ∃ st,
    main [Line (text "sleep 9 &" ++ newline) (Os 101 true []);
          Signal SIGINT [] 0;
          Line newline (Os 102 true [])]
      (replicate 64 "x"%char)
    = Continues (st, [101]) ∧
    out st = [SHELL_PROMPT; SHELL_PROMPT; newline; println (text "sleep 9 &");
              SHELL_PROMPT; SHELL_PROMPT].
Proof. eexists. split; reflexivity. Qed.

(** ** Lines of words *)

Section Delimiters.
Variable delim : list ascii.
Hypothesis delim_blank : ∀ c, is_delim delim c = true → is_delim blanks c = true.
Hypothesis delim_space : is_delim delim " "%char = true.

Lemma plain_not_delim c : plain c = true → is_delim delim c = false.
Proof.
  unfold plain. intros [_ Hb]%andb_true_iff.
  destruct (is_delim delim c) eqn:Hd; [|done].
  by rewrite (delim_blank c Hd) in Hb.
Qed.

Lemma plain_not_NUL c : plain c = true → Ascii.eqb c NUL = false.
Proof. unfold plain. intros [Hn _]%andb_true_iff. by destruct (Ascii.eqb c NUL). Qed.

Lemma is_word_plain w : is_word w = true → forallb plain w = true ∧ w ≠ [].
Proof. by destruct w. Qed.

Lemma strspn_terminated x : terminated x = true → strspn delim x = 0%nat.
Proof.
  destruct x as [|c x]; [done|]. cbn. intros ->%Ascii.eqb_eq.
  destruct (is_delim delim NUL) eqn:Hd; [|done].
  by apply delim_blank in Hd.
Qed.

Lemma strspn_word w x : is_word w = true → strspn delim (w ++ x) = 0%nat.
Proof.
  destruct w as [|c w]; [done|]. cbn [is_word forallb].
  intros [Hc _]%andb_true_iff. cbn. by rewrite plain_not_delim.
Qed.

Lemma strcspn_plain w x :
  forallb plain w = true → strcspn delim x = 0%nat →
  strcspn delim (w ++ x) = length w.
Proof.
  intros Hw Hx. induction w as [|c w IH]; [done|].
  cbn in Hw. apply andb_true_iff in Hw as [Hc Hw]. cbn.
  rewrite plain_not_NUL, plain_not_delim by done. cbn. by rewrite IH.
Qed.

Lemma strcspn_terminated x : terminated x = true → strcspn delim x = 0%nat.
Proof. destruct x as [|c x]; [done|]. cbn. by intros ->. Qed.

Lemma strcspn_space r : strcspn delim (" "%char :: r) = 0%nat.
Proof. cbn. by rewrite delim_space. Qed.

Lemma byte_at_app_r pre m j : byte_at (pre ++ m) (length pre + j) = byte_at m j.
Proof.
  unfold byte_at. rewrite lookup_app_r by lia.
  by replace (length pre + j - length pre)%nat with j by lia.
Qed.

Lemma byte_at_word_head w x : is_word w = true → Ascii.eqb (byte_at (w ++ x) 0) NUL = false.
Proof.
  destruct w as [|c w]; [done|]. cbn [is_word forallb].
  intros [Hc _]%andb_true_iff. cbn. by apply plain_not_NUL.
Qed.

Lemma byte_at_terminated x : terminated x = true → Ascii.eqb (byte_at x 0) NUL = true.
Proof. by destruct x. Qed.

Lemma strtok_none s olds pre x :
  default olds s = length pre → terminated x = true →
  strtok s delim (pre ++ x) olds = (None, pre ++ x, length pre).
Proof.
  intros Hs Hx. unfold strtok. cbv zeta. rewrite Hs.
  rewrite drop_app_length, strspn_terminated, Nat.add_0_r by done.
  rewrite <- (Nat.add_0_r (length pre)) at 1.
  by rewrite byte_at_app_r, byte_at_terminated.
Qed.

Lemma strtok_last s olds pre w x :
  default olds s = length pre → is_word w = true → terminated x = true →
  strtok s delim (pre ++ w ++ x) olds
  = (Some (length pre), pre ++ w ++ x, (length pre + length w)%nat).
Proof.
  intros Hs Hw Hx. unfold strtok. cbv zeta. rewrite Hs.
  rewrite drop_app_length, strspn_word, Nat.add_0_r by done.
  rewrite <- (Nat.add_0_r (length pre)) at 1.
  rewrite byte_at_app_r, byte_at_word_head by done.
  rewrite drop_app_length.
  rewrite strcspn_plain by (by apply is_word_plain || by apply strcspn_terminated).
  rewrite byte_at_app_r.
  rewrite <- (Nat.add_0_r (length w)) at 1.
  by rewrite byte_at_app_r, byte_at_terminated.
Qed.

Lemma strtok_word s olds pre w r :
  default olds s = length pre → is_word w = true →
  strtok s delim (pre ++ w ++ " "%char :: r) olds
  = (Some (length pre), (pre ++ w ++ [NUL]) ++ r, length (pre ++ w ++ [NUL])).
Proof.
  intros Hs Hw. unfold strtok. cbv zeta. rewrite Hs.
  rewrite drop_app_length, strspn_word, Nat.add_0_r by done.
  rewrite <- (Nat.add_0_r (length pre)) at 1.
  rewrite byte_at_app_r, byte_at_word_head by done.
  rewrite drop_app_length.
  rewrite strcspn_plain by (by apply is_word_plain || by apply strcspn_space).
  rewrite byte_at_app_r.
  rewrite <- (Nat.add_0_r (length w)) at 1.
  rewrite byte_at_app_r. cbn [byte_at lookup list_lookup default from_option id Ascii.eqb].
  f_equal; [f_equal|].
  - rewrite (app_assoc pre w). rewrite insert_app_r_alt by (rewrite length_app; lia).
    rewrite length_app, Nat.sub_diag. cbn. by rewrite <- !app_assoc.
  - rewrite !length_app. cbn. lia.
Qed.

(** One turn of the loop on a word that is not the last one. *)
Lemma scan_word s olds fuel (i : nat) tokens pre w r :
  default olds s = length pre → is_word w = true →
  (i < 10)%nat → length tokens = 10%nat →
  scan s delim (S fuel) (Z.of_nat i) tokens (pre ++ w ++ " "%char :: r) olds
  = scan None space fuel (Z.of_nat (S i)) (<[i := Tok (length pre)]> tokens)
      ((pre ++ w ++ [NUL]) ++ r) (length (pre ++ w ++ [NUL])).
Proof.
  intros Hs Hw Hi Hlen. unfold scan at 1.
  rewrite strtok_word by done. cbn [tokenize].
  assert ((Z.of_nat i <? MAX_ARGS) = true) as -> by (unfold MAX_ARGS; lia).
  rewrite store_in_range by lia. rewrite Nat2Z.id.
  replace (Z.of_nat i + 1) with (Z.of_nat (S i)) by lia. done.
Qed.

(** One turn of the loop on the last word. *)
Lemma scan_last s olds fuel (i : nat) tokens pre w x :
  default olds s = length pre → is_word w = true → terminated x = true →
  (i < 10)%nat → length tokens = 10%nat →
  scan s delim (S fuel) (Z.of_nat i) tokens (pre ++ w ++ x) olds
  = scan None space fuel (Z.of_nat (S i)) (<[i := Tok (length pre)]> tokens)
      ((pre ++ w) ++ x) (length (pre ++ w)).
Proof.
  intros Hs Hw Hx Hi Hlen. unfold scan at 1.
  rewrite strtok_last by done. cbn [tokenize].
  assert ((Z.of_nat i <? MAX_ARGS) = true) as -> by (unfold MAX_ARGS; lia).
  rewrite store_in_range by lia. rewrite Nat2Z.id.
  replace (Z.of_nat i + 1) with (Z.of_nat (S i)) by lia.
  by rewrite length_app, <- app_assoc.
Qed.

(** No word left: the loop is not entered. *)
Lemma scan_none s olds fuel i tokens pre x :
  default olds s = length pre → terminated x = true →
  scan s delim fuel i tokens (pre ++ x) olds = Done (i, tokens, pre ++ x).
Proof.
  intros Hs Hx. unfold scan. rewrite strtok_none by done. by destruct fuel.
Qed.
End Delimiters.

Lemma space_blank c : is_delim space c = true → is_delim blanks c = true.
Proof. unfold is_delim. cbn. by destruct (Ascii.eqb c " "). Qed.

Lemma unwords_cons sep w w' ws :
  unwords sep (w :: w' :: ws) = w ++ sep :: unwords sep (w' :: ws).
Proof. done. Qed.

(** The loop on a line of at most [10 - i] words: every word gives a
    token and its separator becomes a NUL. *)
Lemma scan_words x ws : ∀ pre (i : nat) tokens fuel,
  forallb is_word ws = true → terminated x = true →
  (i + length ws ≤ 10)%nat → length tokens = 10%nat → (length ws ≤ fuel)%nat →
  scan None space fuel (Z.of_nat i) tokens (pre ++ unwords " " ws ++ x)
    (length pre)
  = Done (Z.of_nat (i + length ws), fill i (offsets (length pre) ws) tokens,
          pre ++ unwords NUL ws ++ x).
Proof.
  induction ws as [|w ws IH]; intros pre i tokens fuel Hws Hx Hi Hlen Hfuel.
  - cbn [unwords app length offsets fill]. rewrite Nat.add_0_r.
    by apply (scan_none space space_blank).
  - cbn [forallb] in Hws. apply andb_true_iff in Hws as [Hw Hws].
    destruct fuel as [|fuel]; [cbn in Hfuel; lia|].
    cbn [length] in Hi, Hfuel. cbn [offsets fill length].
    destruct ws as [|w' ws].
    + cbn [unwords length] in *. rewrite (scan_last space space_blank) by (done || lia).
      specialize (IH (pre ++ w) (S i) (<[i := Tok (length pre)]> tokens) fuel).
      cbn [unwords app length offsets fill] in IH.
      rewrite IH by (done || rewrite ?length_insert; lia).
      cbn [length offsets fill]. do 2 f_equal; [f_equal; lia|by rewrite <- app_assoc].
    + rewrite unwords_cons, <- (app_assoc w), <- app_comm_cons.
      rewrite (scan_word space space_blank) by (done || lia).
      rewrite IH by (done || rewrite ?length_insert; cbn [length] in *; lia).
      rewrite !length_app. cbn [length].
      replace (length pre + (length w + 1))%nat
        with (length pre + length w + 1)%nat by lia.
      do 2 f_equal; [f_equal; cbn [length]; lia|].
      rewrite (unwords_cons NUL). by rewrite <- !app_assoc.
Qed.

Lemma blanks_space : is_delim blanks " "%char = true.
Proof. done. Qed.

(** The same from the first [strtok] call of [execcmd]. *)
Lemma scan_line x ws tokens fuel :
  forallb is_word ws = true → terminated x = true →
  (length ws ≤ 10)%nat → length tokens = 10%nat → (length ws ≤ fuel)%nat →
  scan (Some 0%nat) blanks fuel 0 tokens (unwords " " ws ++ x) 0
  = Done (Z.of_nat (length ws), fill 0 (offsets 0 ws) tokens,
          unwords NUL ws ++ x).
Proof.
  intros Hws Hx Hk Hlen Hfuel.
  destruct ws as [|w ws].
  { by apply (scan_none blanks (λ c H, H) (Some 0%nat) 0%nat fuel 0 tokens []). }
  cbn [forallb] in Hws. apply andb_true_iff in Hws as [Hw Hws].
  destruct fuel as [|fuel]; [cbn in Hfuel; lia|].
  cbn [length] in Hk, Hfuel. cbn [offsets fill length].
  destruct ws as [|w' ws].
  - cbn [unwords length].
    pose proof (scan_last blanks (λ c H, H) (Some 0%nat) 0%nat fuel 0 tokens
                  [] w x eq_refl Hw Hx ltac:(lia) Hlen) as Hfirst.
    cbn [app length] in Hfirst. change (Z.of_nat 0) with 0 in Hfirst.
    rewrite Hfirst.
    pose proof (scan_words x [] w 1 (<[0%nat := Tok 0]> tokens) fuel) as H.
    cbn [unwords app length offsets fill] in H.
    rewrite H by (done || rewrite ?length_insert; lia).
    done.
  - rewrite unwords_cons, <- (app_assoc w), <- app_comm_cons.
    pose proof (scan_word blanks (λ c H, H) blanks_space (Some 0%nat) 0%nat
                  fuel 0 tokens [] w (unwords " " (w' :: ws) ++ x) eq_refl Hw
                  ltac:(lia) Hlen) as Hfirst.
    cbn [app length] in Hfirst. change (Z.of_nat 0) with 0 in Hfirst.
    rewrite Hfirst.
    rewrite (scan_words x (w' :: ws) (w ++ [NUL]) 1)
      by (done || rewrite ?length_insert; cbn [length] in *; lia).
    rewrite !length_app. cbn [length Nat.add]. do 2 f_equal.
    rewrite (unwords_cons NUL). by rewrite <- !app_assoc.
Qed.

Lemma fill_spec ps : ∀ i tokens,
  (i + length ps ≤ length tokens)%nat →
  fill i ps tokens
  = take i tokens ++ map Tok ps ++ drop (i + length ps) tokens.
Proof.
  induction ps as [|p ps IH]; intros i tokens Hlen; cbn [fill map length app].
  - by rewrite Nat.add_0_r, take_drop.
  - cbn [length] in Hlen. rewrite IH by (rewrite length_insert; lia).
    rewrite (take_S_r _ _ (Tok p)) by (apply list_lookup_insert_eq; lia).
    rewrite take_insert_ge, drop_insert_lt by lia.
    rewrite <- app_assoc. cbn [app].
    by replace (S i + length ps)%nat with (i + S (length ps))%nat by lia.
Qed.

Lemma offsets_length base ws : length (offsets base ws) = length ws.
Proof. revert base. induction ws as [|w ws IH]; intros base; cbn; [done|]. by rewrite IH. Qed.

(** Lines 143-157 on a line of [k] words, [k] at most 9: [k] tokens, the
    NULL after them, the separators turned into NULs. *)
Lemma split_words x ws :
  forallb is_word ws = true → terminated x = true → (length ws ≤ 9)%nat →
  split (unwords " " ws ++ x)
  = Done (Z.of_nat (length ws),
          map Tok (offsets 0 ws) ++ Null :: replicate (9 - length ws) Uninit,
          unwords NUL ws ++ x).
Proof.
  intros Hws Hx Hk.
  pose proof (scan_line x ws (replicate 10 Uninit) 10 Hws Hx ltac:(lia)
                eq_refl ltac:(lia)) as Hscan.
  unfold split. unfold scan in Hscan.
  destruct (strtok (Some 0%nat) blanks (unwords " " ws ++ x) 0)
    as [[token buf] olds].
  change (Z.to_nat MAX_ARGS) with 10%nat. rewrite Hscan. cbn.
  rewrite fill_spec by (rewrite offsets_length; cbn; lia).
  rewrite offsets_length. cbn [take app Nat.add].
  rewrite store_in_range
    by (rewrite length_app, length_map, offsets_length, length_drop; cbn; lia).
  cbn. do 2 f_equal. rewrite Nat2Z.id.
  rewrite insert_app_r_alt by (rewrite length_map, offsets_length; lia).
  rewrite length_map, offsets_length, Nat.sub_diag. f_equal.
  change (drop (length ws) _) with (drop (length ws) (replicate 10 Uninit)).
  rewrite drop_replicate.
  destruct (10 - length ws)%nat as [|n] eqn:Hn; [lia|].
  replace n with (9 - length ws)%nat by lia. done.
Qed.

Lemma cstring_word w y :
  forallb plain w = true → terminated y = true → cstring (w ++ y) = w.
Proof.
  intros Hw Hy. induction w as [|c w IH].
  - destruct y as [|c y]; [done|]. cbn in *. by rewrite Hy.
  - cbn in Hw. apply andb_true_iff in Hw as [Hc Hw]. cbn.
    rewrite (plain_not_NUL c Hc). by rewrite IH.
Qed.

Lemma is_word_forallb w : is_word w = true → forallb plain w = true.
Proof. by destruct w. Qed.

(** What [execvp] reads from the tokens of a line of words. *)
Lemma argv_of_words x ws : ∀ pre i rest,
  forallb is_word ws = true → terminated x = true →
  argv_of (pre ++ unwords NUL ws ++ x)
    (map Tok (offsets (length pre) ws) ++ Null :: rest) i
  = Done ws.
Proof.
  induction ws as [|w ws IH]; intros pre i rest Hws Hx; [done|].
  cbn [forallb] in Hws. apply andb_true_iff in Hws as [Hw Hws].
  cbn [offsets map app argv_of].
  assert (cstring (drop (length pre) (pre ++ unwords NUL (w :: ws) ++ x)) = w)
    as ->.
  { rewrite drop_app_length. destruct ws as [|w' ws].
    - cbn [unwords]. by apply cstring_word; [apply is_word_forallb|].
    - rewrite unwords_cons, <- app_assoc.
      by apply cstring_word; [apply is_word_forallb|]. }
  destruct ws as [|w' ws]; [done|].
  rewrite unwords_cons, <- (app_assoc w), <- app_comm_cons.
  replace (pre ++ w ++ NUL :: unwords NUL (w' :: ws) ++ x)
    with ((pre ++ w ++ [NUL]) ++ unwords NUL (w' :: ws) ++ x)
    by (by rewrite <- !app_assoc).
  replace (length pre + length w + 1)%nat with (length (pre ++ w ++ [NUL]))
    by (rewrite !length_app; cbn; lia).
  by rewrite IH.
Qed.

Lemma byte_at_drop buf p j : byte_at buf (p + j) = byte_at (drop p buf) j.
Proof. unfold byte_at. by rewrite lookup_drop. Qed.

Lemma byte_at_app_l (w y : list ascii) j :
  (j < length w)%nat → byte_at (w ++ y) j = byte_at w j.
Proof. intros Hj. unfold byte_at. by rewrite lookup_app_l. Qed.

Lemma strlen_word w y :
  forallb plain w = true → terminated y = true →
  strlen (w ++ y) = Z.of_nat (length w).
Proof. intros Hw Hy. unfold strlen. by rewrite cstring_word. Qed.

(** The test of lines 160 and 164 on a token [w] at offset [p]. *)
Lemma peek_last buf p w y c :
  drop p buf = (w ++ [c]) ++ y →
  peek buf (Z.of_nat p + Z.of_nat (length (w ++ [c])) - 1) = Done c.
Proof.
  intros Hdrop. unfold peek.
  assert (length buf = (p + length (drop p buf))%nat ∧ (p ≤ length buf)%nat)
    as [Hlen Hp].
  { rewrite length_drop.
    assert (length (drop p buf) ≠ 0%nat); [|rewrite length_drop in *; lia].
    rewrite Hdrop, !length_app. cbn. lia. }
  rewrite Hdrop in Hlen. rewrite !length_app in *. cbn [length] in *.
  replace ((0 <=? _) && (_ <=? _)) with true
    by (symmetry; apply andb_true_iff; split; apply Z.leb_le; lia).
  replace (Z.to_nat (Z.of_nat p + Z.of_nat (length w + 1) - 1))
    with (p + length w)%nat by lia.
  rewrite byte_at_drop, Hdrop, <- app_assoc.
  rewrite <- (Nat.add_0_r (length w)), byte_at_app_r. done.
Qed.

Lemma peek_first buf p c w :
  drop p buf = c :: w → peek buf (Z.of_nat p) = Done c.
Proof.
  intros Hdrop. unfold peek.
  assert (p < length buf)%nat as Hp.
  { destruct (decide (p < length buf)%nat); [done|].
    rewrite drop_ge in Hdrop by lia. done. }
  replace ((0 <=? _) && (_ <=? _)) with true
    by (symmetry; apply andb_true_iff; lia).
  rewrite Nat2Z.id, <- (Nat.add_0_r p), byte_at_drop, Hdrop. done.
Qed.

Lemma unwords_snoc sep ws w' wl :
  unwords sep ((w' :: ws) ++ [wl]) = unwords sep (w' :: ws) ++ sep :: wl.
Proof.
  revert w'. induction ws as [|w ws IH]; intros w'; [done|].
  cbn [app] in *. rewrite !unwords_cons, IH. by rewrite <- app_assoc.
Qed.

Lemma offsets_snoc sep base ws w' wl :
  offsets base ((w' :: ws) ++ [wl])
  = offsets base (w' :: ws) ++ [(base + length (unwords sep (w' :: ws)) + 1)%nat].
Proof.
  revert base w'. induction ws as [|w ws IH]; intros base w'; [done|].
  cbn [app offsets] in *. rewrite IH. cbn [app]. do 3 f_equal.
  rewrite (unwords_cons sep w'), length_app. cbn [length]. f_equal. lia.
Qed.

(** Where [tokens[i-1]] points after [split]. *)
Lemma last_token x ws0 wl rest :
  ∃ pl,
    load (map Tok (offsets 0 (ws0 ++ [wl])) ++ Null :: rest)
      (Z.of_nat (length (ws0 ++ [wl])) - 1)
    = Done (Tok pl) ∧
    drop pl (unwords NUL (ws0 ++ [wl]) ++ x) = wl ++ x ∧
    map Tok (offsets 0 (ws0 ++ [wl])) = map Tok (offsets 0 ws0) ++ [Tok pl].
Proof.
  destruct ws0 as [|w' ws].
  - exists 0%nat. done.
  - exists (length (unwords NUL (w' :: ws)) + 1)%nat.
    rewrite (offsets_snoc NUL), unwords_snoc, map_app. cbn [map Nat.add].
    split; [|split; [|done]].
    + destruct (load_in_range
                  ((map Tok (offsets 0 (w' :: ws))
                    ++ [Tok (length (unwords NUL (w' :: ws)) + 1)])
                   ++ Null :: rest)
                  (Z.of_nat (length ((w' :: ws) ++ [wl])) - 1))
        as (v & Hv & ->).
      { rewrite !length_app, length_map, offsets_length. cbn [length]. lia. }
      rewrite lookup_app_l in Hv
        by (rewrite !length_app, length_map, offsets_length; cbn [length]; lia).
      rewrite lookup_app_r in Hv
        by (rewrite !length_app, length_map, offsets_length; cbn [length]; lia).
      rewrite length_map, offsets_length, length_app in Hv. cbn [length] in Hv.
      replace (Z.to_nat (Z.of_nat (S (length ws) + 1) - 1) - S (length ws))%nat
        with 0%nat in Hv by lia.
      by injection Hv as <-.
    + replace (unwords NUL (w' :: ws) ++ NUL :: wl)
        with ((unwords NUL (w' :: ws) ++ [NUL]) ++ wl)
        by (by rewrite <- app_assoc).
      rewrite <- app_assoc. apply drop_app_length'.
      rewrite length_app. cbn. lia.
Qed.

Lemma first_token ws x w1 ws' :
  ws = w1 :: ws' → terminated x = true →
  ∃ y, terminated y = true ∧ unwords NUL ws ++ x = w1 ++ y.
Proof.
  intros -> Hx. destruct ws' as [|w ws'].
  - by exists x.
  - exists (NUL :: unwords NUL (w :: ws') ++ x). split; [done|].
    by rewrite unwords_cons, <- app_assoc.
Qed.

Lemma load_first p ps rest :
  load (map Tok (p :: ps) ++ Null :: rest) 0 = Done (Tok p).
Proof. done. Qed.

(** Lines 159-167 when the first token ends with the marker. *)
Lemma marker_attached (i : Z) tokens w y :
  load tokens 0 = Done (Tok 0) → forallb plain w = true → terminated y = true →
  marker i tokens ((w ++ [amp]) ++ y) = Done (tokens, w ++ NUL :: y, 1).
Proof.
  intros Hload Hw Hy. unfold marker. rewrite Hload. cbn [mbind result_bind pointer].
  rewrite drop_0, strlen_word; [|by rewrite forallb_app, Hw|done].
  rewrite (peek_last _ 0 w y amp) by done. cbn [mbind result_bind].
  rewrite Ascii.eqb_refl.
  rewrite store_in_range by (rewrite !length_app; cbn [length]; lia).
  cbn [mbind result_bind]. rewrite length_app. cbn [length].
  replace (Z.to_nat (Z.of_nat 0 + Z.of_nat (length w + 1) - 1))
    with (length w + 0)%nat by lia.
  rewrite <- app_assoc, insert_app_r. done.
Qed.

(** Lines 159-167 when the first token does not end with the marker. *)
Lemma marker_others (i : Z) tokens buf w c y pl wl yl :
  load tokens 0 = Done (Tok 0) → buf = (w ++ [c]) ++ y →
  forallb plain (w ++ [c]) = true → terminated y = true → c ≠ amp →
  load tokens (i - 1) = Done (Tok pl) → drop pl buf = wl ++ yl →
  is_word wl = true → terminated yl = true →
  marker i tokens buf
  = if bool_decide (wl = [amp])
    then tokens' ← store tokens (i - 1) Null; Done (tokens', buf, 1)
    else Done (tokens, buf, 0).
Proof.
  intros Hload Hbuf Hw Hy Hc Hlast Hdrop Hwl Hyl. unfold marker.
  rewrite Hload. cbn [mbind result_bind pointer].
  rewrite drop_0. rewrite Hbuf at 1 2. rewrite strlen_word by done.
  rewrite (peek_last _ 0 w y c) by done. cbn [mbind result_bind].
  destruct (Ascii.eqb_spec c amp) as [|_]; [done|].
  rewrite Hlast. cbn [mbind result_bind pointer].
  destruct wl as [|c0 wl]; [done|].
  rewrite (peek_first buf pl c0 (wl ++ yl)) by done. cbn [mbind result_bind].
  rewrite Hdrop, strlen_word by (by apply is_word_forallb || done).
  destruct (Ascii.eqb_spec c0 amp) as [->|Hne].
  - destruct wl as [|c1 wl].
    + by rewrite bool_decide_eq_true_2.
    + rewrite bool_decide_eq_false_2 by done.
      cbn [length andb].
      by assert ((Z.of_nat (S (S (length wl))) =? 1) = false) as ->
        by (apply Z.eqb_neq; lia).
  - rewrite bool_decide_eq_false_2 by congruence. done.
Qed.

Lemma plain_amp : plain amp = true.
Proof. done. Qed.

(** [parse] on a line of at most nine words whose first word does not
    end with the marker. *)
Lemma parse_words x w c ws' ws0 wl :
  (w ++ [c]) :: ws' = ws0 ++ [wl] →
  forallb is_word (ws0 ++ [wl]) = true → terminated x = true →
  (length (ws0 ++ [wl]) ≤ 9)%nat → c ≠ amp →
  parse (unwords " " (ws0 ++ [wl]) ++ x)
  = if bool_decide (wl = [amp])
    then Done (map Tok (offsets 0 ws0) ++ Null :: Null
                 :: replicate (9 - length (ws0 ++ [wl])) Uninit,
               unwords NUL (ws0 ++ [wl]) ++ x, 1)
    else Done (map Tok (offsets 0 (ws0 ++ [wl])) ++ Null
                 :: replicate (9 - length (ws0 ++ [wl])) Uninit,
               unwords NUL (ws0 ++ [wl]) ++ x, 0).
Proof.
  intros Hws Hwords Hx Hk Hc. unfold parse.
  rewrite split_words by done. cbn [mbind result_bind].
  set (rest := replicate (9 - length (ws0 ++ [wl])) Uninit).
  destruct (last_token x ws0 wl rest) as (pl & Hload & Hdrop & Hsnoc).
  destruct (first_token (ws0 ++ [wl]) x (w ++ [c]) ws' (eq_sym Hws) Hx)
    as (y & Hy & Hbuf).
  assert (is_word wl = true) as Hwl.
  { rewrite forallb_app in Hwords. apply andb_true_iff in Hwords as [_ Hl].
    cbn in Hl. by rewrite andb_true_r in Hl. }
  assert (is_word (w ++ [c]) = true) as Hw1.
  { rewrite <- Hws in Hwords. cbn [forallb] in Hwords.
    by apply andb_true_iff in Hwords as [Hw1 _]. }
  assert (load (map Tok (offsets 0 (ws0 ++ [wl])) ++ Null :: rest) 0
          = Done (Tok 0)) as Hfirst.
  { rewrite <- Hws. apply load_first. }
  rewrite (marker_others _ _ _ w c y pl wl x Hfirst Hbuf
             (is_word_forallb _ Hw1) Hy Hc Hload Hdrop Hwl Hx).
  case_bool_decide as Hamp; [|done].
  rewrite store_in_range
    by (rewrite !length_app, length_map, offsets_length, !length_app;
        cbn [length]; lia).
  cbn [mbind result_bind]. do 2 f_equal.
  rewrite Hsnoc, <- app_assoc. cbn [app].
  rewrite insert_app_r_alt
    by (rewrite length_map, offsets_length, length_app; cbn [length]; lia).
  rewrite length_map, offsets_length, length_app. cbn [length].
  by replace (Z.to_nat (Z.of_nat (length ws0 + 1) - 1) - length ws0)%nat
    with 0%nat by lia.
Qed.

Lemma scan_full s delim fuel tokens buf olds :
  ∃ buf', scan s delim fuel 10 tokens buf olds = Done (10, tokens, buf').
Proof.
  unfold scan. destruct (strtok s delim buf olds) as [[[p|] buf'] olds'];
    exists buf'; by destruct fuel.
Qed.

(** With ten words or more to go the loop stops at [i = MAX_ARGS]. *)
Lemma scan_overflow x ws : ∀ pre (i : nat) tokens fuel,
  forallb is_word ws = true → terminated x = true →
  (i ≤ 10 ≤ i + length ws)%nat → length tokens = 10%nat → (10 - i ≤ fuel)%nat →
  ∃ tokens' buf',
    scan None space fuel (Z.of_nat i) tokens (pre ++ unwords " " ws ++ x)
      (length pre)
    = Done (10, tokens', buf') ∧ length tokens' = 10%nat.
Proof.
  induction ws as [|w ws IH]; intros pre i tokens fuel Hws Hx Hi Hlen Hfuel.
  - cbn [length] in Hi. assert (i = 10%nat) as -> by lia.
    change (Z.of_nat 10) with 10.
    destruct (scan_full None space fuel tokens (pre ++ unwords " " [] ++ x)
                (length pre)) as [buf' ->]. eauto.
  - destruct (decide (i = 10%nat)) as [->|Hne].
    { change (Z.of_nat 10) with 10.
      destruct (scan_full None space fuel tokens
                  (pre ++ unwords " " (w :: ws) ++ x) (length pre))
        as [buf' ->]. eauto. }
    cbn [forallb] in Hws. apply andb_true_iff in Hws as [Hw Hws].
    destruct fuel as [|fuel]; [lia|]. cbn [length] in Hi.
    destruct ws as [|w' ws].
    + cbn [unwords]. rewrite (scan_last space space_blank) by (done || lia).
      specialize (IH (pre ++ w) (S i) (<[i := Tok (length pre)]> tokens) fuel).
      cbn [unwords app] in IH.
      apply IH; [done|done|cbn [length] in *; lia|by rewrite length_insert|lia].
    + rewrite unwords_cons, <- (app_assoc w), <- app_comm_cons.
      rewrite (scan_word space space_blank) by (done || lia).
      apply IH; [done|done|cbn [length] in *; lia|by rewrite length_insert|lia].
Qed.

(** X1: for a line of ten words or more the loop that fills [tokens]
    stops with [i = MAX_ARGS], and [tokens[i] = NULL] is then a store to
    [tokens[10]], one past the array.  That store is undefined
    behaviour: it is the fault at which the embedding of the tokenizer
    and of [execcmd] ends, and it is reached before the marker test and
    before [fork].  What a compiled shell does after the store is not
    described. *)
Theorem ten_words_overflow_tokens
    (ws : list (list ascii)) (x : list ascii) (env : os) (st : shell) :
  forallb is_word ws = true → terminated x = true → (10 ≤ length ws)%nat →
  split (unwords " " ws ++ x) = Fault (OutOfBounds MAX_ARGS) ∧
  execcmd (unwords " " ws ++ x) env st = Crashed (OutOfBounds MAX_ARGS).
Proof.
  intros Hws Hx Hk.
  assert (split (unwords " " ws ++ x) = Fault (OutOfBounds MAX_ARGS)) as Hsplit.
  { destruct ws as [|w ws]; [cbn in Hk; lia|].
    cbn [forallb] in Hws. apply andb_true_iff in Hws as [Hw Hws].
    cbn [length] in Hk.
    assert (∃ tokens' buf',
              scan (Some 0%nat) blanks 10 0 (replicate 10 Uninit)
                (unwords " " (w :: ws) ++ x) 0
              = Done (10, tokens', buf') ∧ length tokens' = 10%nat)
      as (tokens' & buf' & Hscan & Hlen).
    { destruct ws as [|w' ws]; [cbn in Hk; lia|].
      rewrite unwords_cons, <- (app_assoc w), <- app_comm_cons.
      pose proof (scan_word blanks (λ c H, H) blanks_space (Some 0%nat) 0%nat
                    9 0 (replicate 10 Uninit) [] w
                    (unwords " " (w' :: ws) ++ x) eq_refl Hw ltac:(lia)
                    eq_refl) as Hfirst.
      cbn [app length] in Hfirst. change (Z.of_nat 0) with 0 in Hfirst.
      rewrite Hfirst.
      apply (scan_overflow x (w' :: ws) (w ++ [NUL]) 1);
        [done|done|cbn [length] in *; lia|by rewrite length_insert|lia]. }
    unfold split. unfold scan in Hscan.
    destruct (strtok (Some 0%nat) blanks (unwords " " (w :: ws) ++ x) 0)
      as [[token buf] olds].
    change (Z.to_nat MAX_ARGS) with 10%nat. rewrite Hscan.
    cbn [mbind result_bind]. rewrite store_out_of_range by lia. done. }
  split; [done|]. unfold execcmd, parse. by rewrite Hsplit.
Qed.

Lemma ten_words_overflow_tokens_witness :
  split (unwords " " (replicate 12 (text "ab")) ++ NUL :: text "old")
  = Fault (OutOfBounds MAX_ARGS) ∧
  execcmd (unwords " " (replicate 12 (text "ab")) ++ NUL :: text "old")
    (Os 7 true []) initial
  = Crashed (OutOfBounds MAX_ARGS).
Proof.
  apply (ten_words_overflow_tokens (replicate 12 (text "ab"))
           (NUL :: text "old") (Os 7 true []) initial);
    [reflexivity|reflexivity|cbn; lia].
Defined.

Lemma word_snoc w : is_word w = true → ∃ w' c, w = w' ++ [c].
Proof.
  intros Hw. destruct w as [|c w] using rev_ind; [done|]. eauto.
Qed.

Lemma last_snoc_ne {A} (l : list A) (a b : A) : last (l ++ [a]) ≠ Some b → a ≠ b.
Proof. rewrite last_snoc. congruence. Qed.

(** X2: a line of one to nine words separated by single blanks, whose
    first word does not end with [&] and whose last word is not [&], is
    handed to [execvp] word for word and is run in the foreground. *)
Theorem plain_line_argv (ws : list (list ascii)) (x : list ascii) :
  forallb is_word ws = true → terminated x = true →
  (1 ≤ length ws ≤ 9)%nat →
  last (hd [] ws) ≠ Some amp → last ws ≠ Some [amp] →
  argv_bg (unwords " " ws ++ x) = Done (ws, 0).
Proof.
  intros Hws Hx Hk Hfirst Hlast.
  destruct ws as [|wl ws0 _] using rev_ind; [cbn in Hk; lia|].
  apply last_snoc_ne in Hlast.
  assert (∃ w c ws', (w ++ [c]) :: ws' = ws0 ++ [wl] ∧ c ≠ amp)
    as (w & c & ws' & Heq & Hc).
  { destruct (ws0 ++ [wl]) as [|w1 ws'] eqn:Heq; [cbn in Hk; lia|].
    cbn [forallb] in Hws. apply andb_true_iff in Hws as [Hw1 _].
    destruct (word_snoc w1 Hw1) as (w & c & ->).
    exists w, c, ws'. split; [done|]. by apply last_snoc_ne in Hfirst. }
  unfold argv_bg.
  rewrite (parse_words x w c ws' ws0 wl Heq Hws Hx (proj2 Hk) Hc).
  rewrite bool_decide_eq_false_2 by done. cbn [mbind result_bind].
  by rewrite (argv_of_words x (ws0 ++ [wl]) []).
Qed.

Lemma plain_line_argv_witness :
  argv_bg (text "ls -l /tmp" ++ NUL :: text "stale")
  = Done ([text "ls"; text "-l"; text "/tmp"], 0).
Proof.
  apply (plain_line_argv [text "ls"; text "-l"; text "/tmp"]
           (NUL :: text "stale"));
    [reflexivity|reflexivity|cbn; lia|by vm_compute|by vm_compute].
Defined.

(** X3: when the last of two to nine words is a lone [&] and the first
    word does not end with [&], the marker is dropped from the arguments
    and the command is flagged for the background. *)
Theorem detached_marker_argv (ws : list (list ascii)) (x : list ascii) :
  forallb is_word ws = true → terminated x = true →
  (1 ≤ length ws ≤ 8)%nat → last (hd [] ws) ≠ Some amp →
  argv_bg (unwords " " (ws ++ [[amp]]) ++ x) = Done (ws, 1).
Proof.
  intros Hws Hx Hk Hfirst.
  destruct ws as [|w1 ws']; [cbn in Hk; lia|].
  pose proof Hws as Hws1. cbn [forallb] in Hws1.
  apply andb_true_iff in Hws1 as [Hw1 _].
  destruct (word_snoc w1 Hw1) as (w & c & ->).
  apply last_snoc_ne in Hfirst.
  unfold argv_bg.
  assert (forallb is_word (((w ++ [c]) :: ws') ++ [[amp]]) = true) as Hall
    by (by rewrite forallb_app, Hws).
  assert (length (((w ++ [c]) :: ws') ++ [[amp]]) ≤ 9)%nat as Hlen
    by (rewrite length_app; cbn [length] in *; lia).
  rewrite (parse_words x w c (ws' ++ [[amp]]) ((w ++ [c]) :: ws') [amp]
             eq_refl Hall Hx Hlen Hfirst).
  rewrite bool_decide_eq_true_2 by done. cbn [mbind result_bind].
  rewrite unwords_snoc, <- app_assoc.
  by rewrite (argv_of_words (NUL :: [amp] ++ x) ((w ++ [c]) :: ws') []).
Qed.

Lemma detached_marker_argv_witness :
  argv_bg (text "sleep 10 &") = Done ([text "sleep"; text "10"], 1).
Proof.
  apply (detached_marker_argv [text "sleep"; text "10"] []);
    [reflexivity|reflexivity|cbn; lia|by vm_compute].
Defined.

(** X4: when the first of one to nine words ends with [&], that byte is
    cut off the first argument, the other words are passed as they are
    (a final [&] included) and the command is flagged for the
    background. *)
Theorem attached_marker_argv (w : list ascii) (ws : list (list ascii))
    (x : list ascii) :
  forallb plain w = true → forallb is_word ws = true → terminated x = true →
  (length ws ≤ 8)%nat →
  argv_bg (unwords " " ((w ++ [amp]) :: ws) ++ x) = Done (w :: ws, 1).
Proof.
  intros Hw Hws Hx Hk.
  assert (is_word (w ++ [amp]) = true) as Hw1.
  { destruct w as [|c w]; [done|]. cbn [app is_word].
    change (forallb plain ((c :: w) ++ [amp]) = true).
    by rewrite forallb_app, Hw. }
  unfold argv_bg, parse.
  rewrite split_words; [|by cbn [forallb]; rewrite Hw1|done|cbn [length]; lia].
  cbn [mbind result_bind offsets map].
  destruct ws as [|w' ws].
  - cbn [unwords].
    rewrite marker_attached by done. cbn [mbind result_bind argv_of app].
    by rewrite drop_0, (cstring_word w (NUL :: x)).
  - rewrite unwords_cons, <- (app_assoc (w ++ [amp])), <- app_comm_cons.
    rewrite marker_attached by done. cbn [mbind result_bind app argv_of].
    rewrite drop_0, (cstring_word w) by done.
    cbn [forallb] in Hws.
    replace (w ++ NUL :: NUL :: unwords NUL (w' :: ws) ++ x)
      with ((w ++ [NUL; NUL]) ++ unwords NUL (w' :: ws) ++ x)
      by (by rewrite <- app_assoc).
    replace (0 + length (w ++ [amp]) + 1)%nat with (length (w ++ [NUL; NUL]))
      by (rewrite !length_app; cbn [length]; lia).
    change (Tok (length (w ++ [NUL; NUL]))
            :: map Tok (offsets (length (w ++ [NUL; NUL]) + length w' + 1) ws))
      with (map Tok (offsets (length (w ++ [NUL; NUL])) (w' :: ws))).
    by rewrite argv_of_words.
Qed.

Lemma attached_marker_argv_witness :
  argv_bg (text "sleep& 10 &") = Done ([text "sleep"; text "10"; text "&"], 1).
Proof.
  apply (attached_marker_argv (text "sleep") [text "10"; text "&"] []);
    [reflexivity|reflexivity|reflexivity|cbn; lia].
Defined.

(** ** The argument vector *)

(** The loop that fills [tokens] leaves a token in every slot below the
    index it stops at. *)
Lemma tokenize_filled fuel : ∀ i token tokens buf olds i' tokens' buf',
  0 ≤ i →
  (∀ j, (j < Z.to_nat i)%nat → ∃ p, tokens !! j = Some (Tok p)) →
  tokenize fuel i token tokens buf olds = Done (i', tokens', buf') →
  i ≤ i' ∧ ∀ j, (j < Z.to_nat i')%nat → ∃ p, tokens' !! j = Some (Tok p).
Proof.
  induction fuel as [|fuel IH];
    intros i token tokens buf olds i' tokens' buf' Hi Hfilled;
    destruct token as [p|]; cbn [tokenize];
    try (intros [= <- <- <-]; split; [lia|done]).
  - destruct (i <? MAX_ARGS); [done|]. intros [= <- <- <-]. split; [lia|done].
  - destruct (i <? MAX_ARGS); [|intros [= <- <- <-]; split; [lia|done]].
    intros H. invert_seq H. apply store_Done in H0 as [Hin ->].
    destruct (strtok None space buf olds) as [[token' buf1] olds'].
    apply IH in H as [Hle Hall]; [split; [lia|done]|lia|].
    intros j Hj. destruct (decide (j = Z.to_nat i)) as [->|Hne].
    + exists p. apply list_lookup_insert_eq. lia.
    + rewrite list_lookup_insert_ne by done. apply Hfilled. lia.
Qed.

(** What [execvp] finds in an array with tokens in its first [n] slots
    and NULL after them. *)
Lemma argv_of_filled buf : ∀ n tokens i,
  (∀ j, (j < n)%nat → ∃ p, tokens !! j = Some (Tok p)) →
  tokens !! n = Some Null →
  ∃ argv, argv_of buf tokens i = Done argv ∧ length argv = n.
Proof.
  induction n as [|n IH]; intros tokens i Hfilled Hnull.
  - destruct tokens as [|t tokens]; [done|]. injection Hnull as ->.
    by exists [].
  - destruct (Hfilled 0%nat ltac:(lia)) as [p Hp].
    destruct tokens as [|t tokens]; [done|]. injection Hp as ->.
    destruct (IH tokens (i + 1)) as (argv & Hargv & Hlen); [|done|].
    { intros j Hj. apply (Hfilled (S j)). lia. }
    exists (cstring (drop p buf) :: argv). cbn [argv_of]. rewrite Hargv.
    split; [done|]. cbn. by rewrite Hlen.
Qed.

(** Once lines 143-167 have run without fault there is a token in
    [tokens[0]], a NULL within the array after the tokens, and
    [background] is 0 or 1. *)
Lemma parse_Done cmd tokens buf background :
  parse cmd = Done (tokens, buf, background) →
  (background = 0 ∨ background = 1) ∧
  ∃ n, (1 ≤ n ≤ 9)%nat ∧ tokens !! n = Some Null ∧
       ∀ j, (j < n)%nat → ∃ p, tokens !! j = Some (Tok p).
Proof.
  unfold parse. intros H. invert_seq H. destruct x as [[i toks] buf0].
  rename H0 into Hsplit. unfold split in Hsplit.
  destruct (strtok (Some 0%nat) blanks cmd 0) as [[token buf1] olds].
  invert_seq Hsplit. destruct x as [[i1 toks1] buf2].
  rename H0 into Htok. invert_seq Hsplit. rename H0 into Hstore.
  injection Hsplit as -> <- ->.
  destruct (tokenize_in_bounds (Z.to_nat MAX_ARGS) 0 token
              (replicate (Z.to_nat MAX_ARGS) Uninit) buf1 olds)
    as (i' & tokens' & buf' & Htok' & Hi' & Hlen' & _);
    [unfold MAX_ARGS; lia|by rewrite length_replicate|lia|].
  rewrite Htok in Htok'. injection Htok' as <- <- <-.
  apply tokenize_filled in Htok as [_ Hfilled];
    [|lia|intros j Hj; cbn in Hj; lia].
  apply store_Done in Hstore as [Hin ->].
  change (Z.to_nat MAX_ARGS) with 10%nat in *.
  set (toks := <[Z.to_nat i := Null]> toks1) in *.
  assert (toks !! Z.to_nat i = Some Null) as Hnull
    by (apply list_lookup_insert_eq; lia).
  assert (∀ j, (j < Z.to_nat i)%nat → ∃ p, toks !! j = Some (Tok p)) as Htoks.
  { intros j Hj. unfold toks. rewrite list_lookup_insert_ne by lia. auto. }
  assert (length toks = 10%nat) as Hlen
    by (unfold toks; by rewrite length_insert).
  clearbody toks. clear Hfilled.
  unfold marker in H. invert_seq H. rename x into t0, H0 into Ht0.
  apply load_Done in Ht0 as [_ Ht0]. change (Z.to_nat 0) with 0%nat in Ht0.
  invert_seq H. rename x into p0, H0 into Hp0.
  assert (t0 = Tok p0) as -> by (destruct t0; try done; by injection Hp0 as ->).
  invert_seq H. rename x into c, H0 into Hc.
  assert (1 ≤ Z.to_nat i)%nat as Hi1.
  { destruct (Z.to_nat i) eqn:Hz; [|lia]. congruence. }
  destruct (Ascii.eqb_spec c amp) as [->|Hne].
  { invert_seq H. injection H as <- _ <-. split; [by right|].
    exists (Z.to_nat i). split; [lia|done]. }
  invert_seq H. rename x into tl, H0 into Htl.
  invert_seq H. rename x into pl, H0 into Hpl.
  invert_seq H. rename x into c0, H0 into Hc0.
  destruct (Ascii.eqb c0 amp && (strlen (drop pl buf0) =? 1)) eqn:Hdet.
  2:{ injection H as <- _ <-. split; [by left|].
      exists (Z.to_nat i). split; [lia|done]. }
  invert_seq H. rename H0 into Hst. injection H as <- _ <-.
  split; [by right|].
  apply store_Done in Hst as [Hin' ->].
  apply andb_true_iff in Hdet as [->%Ascii.eqb_eq Hone%Z.eqb_eq].
  apply load_Done in Htl as [_ Htl].
  assert (Z.to_nat (i - 1) ≠ 0%nat) as Hnz.
  { intros Hz. rewrite Hz, Ht0 in Htl. injection Htl as <-.
    injection Hpl as <-.
    rewrite Hone in Hc.
    replace (Z.of_nat p0 + 1 - 1) with (Z.of_nat p0) in Hc by lia.
    rewrite Hc in Hc0. by injection Hc0 as ->. }
  exists (Z.to_nat (i - 1)). split; [lia|]. split.
  - apply list_lookup_insert_eq. lia.
  - intros j Hj. rewrite list_lookup_insert_ne by lia. apply Htoks. lia.
Qed.

(** X5: whenever lines 143-167 complete, the child has between one and
    nine arguments, none read from an unwritten slot or past the array;
    [execvp] is called with the first of them as the program, and if it
    fails the child prints that name followed by [: command not found]
    and exits with -1. *)
Theorem child_execs_first_argument
    (cmd : list ascii) (env : os) (st : shell)
    (tokens : list slot) (buf : list ascii) (background : Z) :
  parse cmd = Done (tokens, buf, background) → fork_ret env = 0 →
  ∃ file args,
    argv_of buf tokens 0 = Done (file :: args) ∧
    (length (file :: args) ≤ 9)%nat ∧
    execcmd cmd env st
    = if execvp_ok env then Execs file (file :: args)
      else Exits (-1) (println (file ++ not_found)).
Proof.
  intros Hparse Hfork.
  destruct (parse_Done _ _ _ _ Hparse) as (_ & n & Hn & Hnull & Htoks).
  destruct (argv_of_filled buf n tokens 0 Htoks Hnull) as (argv & Hargv & Hlen).
  destruct (Htoks 0%nat ltac:(lia)) as [p0 Hp0].
  destruct tokens as [|t tokens]; [done|]. injection Hp0 as ->.
  pose proof Hargv as Hargv'. cbn [argv_of] in Hargv'.
  invert_seq Hargv'. injection Hargv' as <-.
  exists (cstring (drop p0 buf)), x. split; [done|]. split; [lia|].
  unfold execcmd. rewrite Hparse, Hfork. cbn [run Z.gtb Z.eqb Z.compare].
  unfold load. cbn [length Z.of_nat]. cbn [Z.leb Z.ltb Z.compare andb].
  change (Z.to_nat 0) with 0%nat.
  cbn [lookup list_lookup mbind result_bind pointer]. rewrite Hargv. done.
Qed.

Lemma child_execs_first_argument_witness :
  ∃ file args,
    argv_of (text "nosuch" ++ NUL :: text "-x")
      [Tok 0; Tok 7; Null; Uninit; Uninit; Uninit; Uninit; Uninit; Uninit;
       Uninit] 0
    = Done (file :: args) ∧
    (length (file :: args) ≤ 9)%nat ∧
    execcmd (text "nosuch -x") (Os 0 false []) initial
    = if execvp_ok (Os 0 false []) then Execs file (file :: args)
      else Exits (-1) (println (file ++ not_found)).
Proof.
  apply (child_execs_first_argument (text "nosuch -x") (Os 0 false []) initial
           _ _ 0); reflexivity.
Defined.

(** X6: once the line is parsed, a failed [fork] makes [execcmd] print
    its error on stderr and return -1 with the registry, the history and
    the [wait] reports untouched; and [execcmd] returns -1 only then:
    every other return is 1, after a [fork] that gave a child. *)
Theorem execcmd_return_value
    (cmd : list ascii) (env : os) (st : shell)
    (tokens : list slot) (buf : list ascii) (background : Z) :
  parse cmd = Done (tokens, buf, background) →
  (fork_ret env < 0 →
   execcmd cmd env st
   = Continues (-1, set_err st (err st ++ [fork_error]), buf, wait_reports env)) ∧
  (∀ ret st' buf' reports,
     execcmd cmd env st = Continues (ret, st', buf', reports) →
     ret = -1 ∧ fork_ret env < 0 ∨
     ret = 1 ∧ 0 < fork_ret env ∧ err st' = err st).
Proof.
  intros Hparse. unfold execcmd. rewrite Hparse. cbn [run]. split.
  - intros Hneg. assert ((0 >? fork_ret env) = true) as -> by lia. done.
  - intros ret st' buf' reports.
    destruct (Z.gtb_spec 0 (fork_ret env)) as [Hneg|Hpos].
    { intros [= <- _ _ _]. by left. }
    destruct (Z.eqb_spec 0 (fork_ret env)) as [Hz|Hnz].
    { intros H. invert_seq H. destruct x as [file argv].
      by destruct (execvp_ok env). }
    destruct (background =? 0).
    + destruct (wait_for _ _); [|done]. intros [= <- <- _ _].
      right. split; [done|]. split; [lia|done].
    + intros H. invert_seq H. injection H as <- <- _ _.
      right. split; [done|]. split; [lia|].
      unfold addChild in H0. cbn in H0. invert_seq H0. by injection H0 as <-.
Qed.

Lemma execcmd_return_value_witness :
  (-1 < 0 →
   execcmd (text "ls") (Os (-1) true [4]) initial
   = Continues (-1, set_err initial (err initial ++ [fork_error]), text "ls",
                [4])) ∧
  (∀ ret st' buf' reports,
     execcmd (text "ls") (Os (-1) true [4]) initial
     = Continues (ret, st', buf', reports) →
     ret = -1 ∧ -1 < 0 ∨ ret = 1 ∧ 0 < -1 ∧ err st' = err initial).
Proof.
  eapply (execcmd_return_value (text "ls") (Os (-1) true [4]) initial).
  reflexivity.
Defined.

(** ** Registries without dangling slots *)

Lemma deref_Done {A} (h : list (option A)) q v :
  deref h q = Done v → ∃ a, q = Some a ∧ h !! a = Some (Some v).
Proof.
  destruct q as [a|]; [|done]. cbn.
  destruct (h !! a) as [[w|]|] eqn:Ha; [|done..]. intros [= ->]. eauto.
Qed.

Lemma deref_app {A} (h h' : list (option A)) q v :
  deref h q = Done v → deref (h ++ h') q = Done v.
Proof.
  intros (a & -> & Ha)%deref_Done. apply deref_live.
  rewrite lookup_app_l; [done|]. by eapply lookup_lt_Some.
Qed.

Lemma tracked_length st l :
  numChildren st ≤ Z.of_nat (length (children st)) →
  tracked st = map Done l → Z.to_nat (numChildren st) = length l.
Proof.
  intros Hn Htr. apply (f_equal length) in Htr.
  unfold tracked in Htr. rewrite !length_map, length_take in Htr. lia.
Qed.

Lemma tracked_lookup st l j v :
  tracked st = map Done l → l !! j = Some v →
  ∃ q, children st !! j = Some q ∧ (j < Z.to_nat (numChildren st))%nat ∧
       deref (pids st) q = Done v.
Proof.
  intros Htr Hj.
  assert (tracked st !! j = Some (Done v)) as H
    by (by rewrite Htr, list_lookup_fmap, Hj).
  unfold tracked in H. rewrite list_lookup_fmap in H.
  destruct (take _ _ !! j) as [q|] eqn:Hq; [|done].
  injection H as H. exists q.
  apply lookup_take_Some in Hq as [Hq Hlt]. done.
Qed.

Lemma addChild_tracked pid st l :
  0 ≤ numChildren st < Z.of_nat (length (children st)) →
  tracked st = map Done l →
  ∃ st', addChild pid st = Done st' ∧ tracked st' = map Done (l ++ [pid]) ∧
    numChildren st' = numChildren st + 1 ∧
    length (children st') = length (children st) ∧ same_hist st st' ∧
    out st' = out st ∧ err st' = err st ∧ interrupted st' = interrupted st.
Proof.
  intros Hroom Htr. unfold addChild. cbn [malloc].
  rewrite store_in_range by done. cbn [mbind result_bind].
  eexists. split; [reflexivity|]. cbn [numChildren children pids].
  split; [|by rewrite length_insert].
  unfold tracked. cbn [numChildren children pids].
  replace (Z.to_nat (numChildren st + 1)) with (S (Z.to_nat (numChildren st)))
    by lia.
  rewrite (take_S_r _ _ (Some (length (pids st))))
    by (apply list_lookup_insert_eq; lia).
  rewrite take_insert_ge by lia.
  rewrite !map_app. cbn [map]. f_equal.
  - rewrite <- Htr. unfold tracked. apply map_ext_in. intros q Hq.
    assert (∃ v, deref (pids st) q = Done v) as [v Hv].
    { apply (in_map (deref (pids st))) in Hq.
      change (In (deref (pids st) q) (tracked st)) in Hq.
      rewrite Htr in Hq. apply in_map_iff in Hq as (v & Hv & _). eauto. }
    rewrite Hv. by apply deref_app.
  - f_equal. apply deref_live. by rewrite lookup_app_r, Nat.sub_diag.
Qed.

Lemma cleanup_loop_tracked st fuel : ∀ (i : nat) l,
  numChildren st ≤ Z.of_nat (length (children st)) →
  map (deref (pids st))
    (drop i (take (Z.to_nat (numChildren st)) (children st))) = map Done l →
  (Z.to_nat (numChildren st) - i ≤ fuel)%nat →
  cleanup_loop fuel (Z.of_nat i) st = Done l.
Proof.
  induction fuel as [|fuel IH]; intros i l Hn Htr Hfuel.
  - cbn. assert ((Z.of_nat i <? numChildren st) = false) as -> by lia.
    rewrite drop_ge in Htr by (rewrite length_take; lia).
    by destruct l.
  - cbn [cleanup_loop].
    destruct (Z.ltb_spec (Z.of_nat i) (numChildren st)) as [Hlt|Hge].
    + destruct (load_in_range (children st) (Z.of_nat i)) as (q & Hq & ->);
        [lia|].
      rewrite Nat2Z.id in Hq.
      rewrite (drop_S _ q) in Htr by (rewrite lookup_take_lt by lia; done).
      destruct l as [|v l]; [done|]. cbn [map] in Htr.
      injection Htr as Hv Htr. cbn [mbind result_bind]. rewrite Hv.
      cbn [mbind result_bind].
      replace (Z.of_nat i + 1) with (Z.of_nat (S i)) by lia.
      rewrite (IH (S i) l) by (done || lia). done.
    + rewrite drop_ge in Htr by (rewrite length_take; lia).
      by destruct l.
Qed.

Lemma cleanup_tracked st l :
  0 ≤ numChildren st ≤ Z.of_nat (length (children st)) →
  tracked st = map Done l → cleanup st = Done l.
Proof.
  intros Hn Htr. unfold cleanup.
  destruct (Z.ltb_spec 0 (numChildren st)) as [Hpos|Hz].
  - by apply (cleanup_loop_tracked st _ 0); [lia| |lia].
  - pose proof (tracked_length st l ltac:(lia) Htr) as Hlen.
    destruct l; [done|]. cbn in Hlen. lia.
Qed.

Lemma register_all_tracked new : ∀ st l,
  0 ≤ numChildren st →
  numChildren st + Z.of_nat (length new) ≤ Z.of_nat (length (children st)) →
  tracked st = map Done l →
  ∃ st', register_all new st = Done st' ∧ tracked st' = map Done (l ++ new) ∧
    numChildren st' = numChildren st + Z.of_nat (length new) ∧
    length (children st') = length (children st) ∧ same_hist st st'.
Proof.
  induction new as [|pid new IH]; intros st l Hn Hroom Htr.
  - exists st. rewrite app_nil_r. cbn. split; [done|]. split; [done|].
    split; [lia|done].
  - cbn [length] in Hroom.
    destruct (addChild_tracked pid st l ltac:(lia) Htr)
      as (st1 & Hadd & Htr1 & Hn1 & Hlen1 & Hh1 & _).
    destruct (IH st1 (l ++ [pid])) as (st' & Hall & Htr' & Hn' & Hlen' & Hh');
      [lia|lia|done|].
    exists st'. cbn [register_all]. rewrite Hadd. cbn [mbind result_bind].
    split; [done|]. rewrite <- app_assoc in Htr'. split; [done|].
    split; [cbn [length]; lia|]. split; [congruence|].
    by eapply same_hist_trans.
Qed.

(** X7: with at most 32 background children registered one after the
    other and none removed, the registry tracks exactly their pids in
    the order of registration, and [cleanup] sends its signal to every
    one of them, in that order. *)
Theorem registered_children_are_killed (new : list pid_t) :
  (length new ≤ 32)%nat →
  ∃ st, register_all new initial = Done st ∧
    numChildren st = Z.of_nat (length new) ∧
    tracked st = map Done new ∧
    cleanup st = Done new.
Proof.
  intros Hlen.
  destruct (register_all_tracked new initial []) as (st & Hall & Htr & Hn & Hl & _);
    [done|cbn; lia|done|].
  exists st. split; [done|]. cbn in Hn, Htr. split; [lia|]. split; [done|].
  apply cleanup_tracked; [|done]. rewrite Hl. cbn. lia.
Qed.

Lemma registered_children_are_killed_witness :
  ∃ st, register_all [412; 87; 9001] initial = Done st ∧
    numChildren st = Z.of_nat (length [412; 87; 9001]) ∧
    tracked st = map Done [412; 87; 9001] ∧
    cleanup st = Done [412; 87; 9001].
Proof. apply (registered_children_are_killed [412; 87; 9001]). cbn. lia. Defined.

Lemma deref_insert_ne {A} (h : list (option A)) q a v :
  deref h q = Done v → q ≠ Some a → deref (<[a := None]> h) q = Done v.
Proof.
  intros (b & -> & Hb)%deref_Done Hne. apply deref_live.
  rewrite list_lookup_insert_ne by congruence. done.
Qed.

(** The loop of [removeChild] when the pid sits in the last tracked slot
    and no shift is attempted before it. *)
Lemma removeChild_loop_last pid st l q fuel : ∀ (i : nat) openIndex,
  tracked st = map Done (l ++ [pid]) → pid ∉ l →
  numChildren st ≤ Z.of_nat (length (children st)) →
  children st !! length l = Some (Some q) →
  (i ≤ length l)%nat → (openIndex = 0 ∨ i = length l) →
  (S (length l) - i ≤ fuel)%nat →
  removeChild_loop fuel pid (Z.of_nat i) openIndex st
  = Done (set_registry st (numChildren st - 1) (children st)
            (<[q := None]> (pids st))).
Proof.
  intros i openIndex Htr Hnot Hn Hq. revert i openIndex.
  pose proof (tracked_length st _ Hn Htr) as Hlen.
  rewrite length_app in Hlen. cbn [length] in Hlen.
  induction fuel as [|fuel IH]; intros i openIndex Hi Hopen Hfuel; [lia|].
  cbn [removeChild_loop].
  assert ((Z.of_nat i <? numChildren st) = true) as -> by lia.
  destruct (decide (i = length l)) as [->|Hne].
  - destruct (tracked_lookup st (l ++ [pid]) (length l) pid Htr)
      as (q' & Hq' & _ & Hderef).
    { by rewrite lookup_app_r, Nat.sub_diag. }
    rewrite Hq in Hq'. injection Hq' as <-.
    destruct (load_in_range (children st) (Z.of_nat (length l)))
      as (q' & Hq' & ->); [lia|].
    rewrite Nat2Z.id, Hq in Hq'. injection Hq' as <-.
    cbn [mbind result_bind]. rewrite Hderef. cbn [mbind result_bind].
    rewrite Z.eqb_refl.
    apply deref_Done in Hderef as (a & [= <-] & Ha).
    rewrite (free_live _ _ _ Ha). cbn [mbind result_bind].
    destruct fuel as [|fuel]; cbn [removeChild_loop numChildren set_registry];
      by assert ((Z.of_nat (length l) + 1 <? numChildren st - 1) = false)
        as -> by lia.
  - destruct Hopen as [->|?]; [|done].
    assert (is_Some (l !! i)) as [v Hv] by (apply lookup_lt_is_Some; lia).
    destruct (tracked_lookup st (l ++ [pid]) i v Htr)
      as (p & Hp & _ & Hderef).
    { by rewrite lookup_app_l by lia. }
    destruct (load_in_range (children st) (Z.of_nat i)) as (p' & Hp' & ->);
      [lia|].
    rewrite Nat2Z.id, Hp in Hp'. injection Hp' as <-.
    cbn [mbind result_bind]. rewrite Hderef. cbn [mbind result_bind].
    assert ((v =? pid) = false) as ->.
    { apply Z.eqb_neq. intros ->. apply Hnot. by eapply list_elem_of_lookup_2. }
    cbn [Z.eqb negb].
    replace (Z.of_nat i + 1) with (Z.of_nat (S i)) by lia.
    apply IH; [lia|by left|lia].
Qed.

(** X8: removing the pid registered last works when the uninitialised
    [openIndex] happens to be 0, and for any value of it when that pid is
    the only one tracked: the other children stay tracked, in order. *)
Theorem last_child_removed
    (pid garbage : Z) (st : shell) (l : list pid_t) :
  tracked st = map Done (l ++ [pid]) → pid ∉ l →
  numChildren st ≤ Z.of_nat (length (children st)) →
  garbage = 0 ∨ l = [] →
  ∃ st', removeChild pid garbage st = Done st' ∧
    tracked st' = map Done l ∧
    numChildren st' = Z.of_nat (length l) ∧
    cleanup st' = Done l.
Proof.
  intros Htr Hnot Hn Hg.
  pose proof (tracked_length st _ Hn Htr) as Hlen.
  rewrite length_app in Hlen. cbn [length] in Hlen.
  destruct (tracked_lookup st (l ++ [pid]) (length l) pid Htr)
    as (q & Hq & _ & Hderef).
  { by rewrite lookup_app_r, Nat.sub_diag. }
  pose proof Hderef as (a & -> & Ha)%deref_Done.
  eexists. split.
  { unfold removeChild. apply (removeChild_loop_last pid st l a _ 0);
      [done|done|done|done|lia| |lia].
    destruct Hg as [->| ->]; [by left|by right]. }
  assert (tracked (set_registry st (numChildren st - 1) (children st)
                     (<[a := None]> (pids st))) = map Done l) as Htr'.
  { unfold tracked. cbn [numChildren children pids set_registry].
    replace (Z.to_nat (numChildren st - 1)) with (length l) by lia.
    apply list_eq. intros j. rewrite !list_lookup_fmap.
    destruct (l !! j) as [v|] eqn:Hv.
    - destruct (tracked_lookup st (l ++ [pid]) j v Htr) as (p & Hp & _ & Hd).
      { rewrite lookup_app_l; [done|]. by eapply lookup_lt_Some. }
      rewrite lookup_take_lt by (by eapply lookup_lt_Some).
      rewrite Hp. cbn. f_equal. apply deref_insert_ne; [done|].
      intros ->. rewrite Hderef in Hd. injection Hd as <-.
      apply Hnot. by eapply list_elem_of_lookup_2.
    - rewrite lookup_take_ge; [done|]. by apply lookup_ge_None. }
  split; [done|]. split; [cbn [numChildren set_registry]; lia|].
  apply cleanup_tracked; [|done]. cbn [numChildren children set_registry]. lia.
Qed.

Lemma last_child_removed_witness :
  ∃ st st',
    register_all [412; 87] initial = Done st ∧
    removeChild 87 0 st = Done st' ∧
    tracked st' = map Done [412] ∧
    numChildren st' = Z.of_nat (length [412]) ∧
    cleanup st' = Done [412].
Proof.
  eexists. 
  destruct (last_child_removed 87 0
              (set_registry initial 2
                 (<[1%nat := Some 1%nat]> (<[0%nat := Some 0%nat]> (children initial)))
                 [Some 412; Some 87]) [412])
    as (st' & H1 & H2 & H3 & H4);
    [reflexivity|by apply (bool_decide_unpack _); vm_compute|cbn; lia|by left|].
  exists st'. split; [reflexivity|]. done.
Defined.

(** X9: asking [removeChild] for a pid that no tracked slot holds (a
    foreground child reaped by the handler, say) leaves the registry as
    it is when the uninitialised [openIndex] is 0; when it is not and at
    least one child is tracked, the first turn of the loop stores to
    [children[-1]]. *)
Theorem unregistered_pid_removal
    (pid garbage : Z) (st : shell) (l : list pid_t) :
  tracked st = map Done l → pid ∉ l →
  numChildren st ≤ Z.of_nat (length (children st)) →
  (garbage = 0 → removeChild pid garbage st = Done st) ∧
  (garbage ≠ 0 → l ≠ [] →
   removeChild pid garbage st = Fault (OutOfBounds (-1))).
Proof.
  intros Htr Hnot Hn.
  pose proof (tracked_length st _ Hn Htr) as Hlen. split.
  - intros ->. apply removeChild_absent; [done|].
    intros j q Hj Hq.
    assert (is_Some (l !! Z.to_nat j)) as [v Hv]
      by (apply lookup_lt_is_Some; lia).
    destruct (tracked_lookup st l _ v Htr Hv) as (q' & Hq' & _ & Hd).
    rewrite Hq in Hq'. injection Hq' as <-. exists v. split; [done|].
    intros ->. apply Hnot. by eapply list_elem_of_lookup_2.
  - intros Hg Hl. destruct l as [|v l]; [done|]. cbn [length] in Hlen.
    destruct (tracked_lookup st (v :: l) 0 v Htr eq_refl) as (q & Hq & _ & Hd).
    destruct (load_in_range (children st) 0) as (q' & Hq' & Hload); [lia|].
    change (Z.to_nat 0) with 0%nat in Hq'. rewrite Hq in Hq'.
    injection Hq' as <-.
    apply (removeChild_garbage pid garbage st q v); [done|lia|done|done|].
    intros ->. apply Hnot. by left.
Qed.

Lemma unregistered_pid_removal_witness :
  ∃ st, register_all [412; 87] initial = Done st ∧
    (0 = 0 → removeChild 5 0 st = Done st) ∧
    (7 ≠ 0 → [412; 87] ≠ [] → removeChild 5 7 st = Fault (OutOfBounds (-1))).
Proof.
  eexists. split; [reflexivity|].
  split.
  - eapply (unregistered_pid_removal 5 0 _ [412; 87]);
      [reflexivity|by apply (bool_decide_unpack _); vm_compute|by vm_compute].
  - eapply (unregistered_pid_removal 5 7 _ [412; 87]);
      [reflexivity|by apply (bool_decide_unpack _); vm_compute|by vm_compute].
Defined.

(** ** What the handler does to the globals *)

(** X10: whenever [sig_handler] returns it has set [interrupted] to 1 and
    left the history and stderr as they were; for a signal other than
    SIGCHLD it has not touched the registry nor called [waitpid]; and
    for a signal that is neither SIGINT nor SIGCHLD all it wrote is the
    line naming the signal number. *)
Theorem sig_handler_effects
    (sig : Z) (zombies : list pid_t) (garbage : Z) (st st' : shell)
    (zombies' : list pid_t) :
  sig_handler sig zombies garbage st = Done (st', zombies') →
  interrupted st' = 1 ∧ same_hist st st' ∧ err st' = err st ∧
  (sig ≠ SIGCHLD →
   numChildren st' = numChildren st ∧ children st' = children st ∧
   pids st' = pids st ∧ zombies' = zombies) ∧
  (sig ≠ SIGINT → sig ≠ SIGCHLD →
   out st' = out st ++ [newline ++ text "Recieved Signal:" ++ decimal sig
                        ++ newline]).
Proof.
  intros H. pose proof (sig_handler_frame _ _ _ _ _ _ H) as Hframe.
  unfold sig_handler in H. invert_seq H. destruct x as [st1 z1].
  injection H as <- <-. cbn [interrupted set_io err].
  split; [done|]. split; [done|].
  destruct (Z.eqb_spec sig SIGINT) as [->|Hint].
  - invert_seq H0. injection H0 as <- <-.
    unfold printHistory in H. invert_seq H. injection H as <-.
    cbn. split; [done|]. split; [done|]. by intros [].
  - destruct (Z.eqb_spec sig SIGCHLD) as [->|Hchld].
    + split; [|split; [by intros []|by intros _ []]].
      clear Hframe. revert st H0.
      induction zombies as [|z zombies IH]; intros st; cbn [reap_loop].
      * by intros [= <- _].
      * destruct (0 <? z); [|by intros [= <- _]].
        intros H. invert_seq H. apply IH in H.
        rewrite H. clear H IH. revert H0. unfold removeChild.
        generalize (Z.to_nat (numChildren st)), 0, garbage.
        intros fuel. revert st.
        induction fuel as [|fuel IHf]; intros st i oi; cbn [removeChild_loop];
          (destruct (i <? numChildren st); [|by intros [= <-]]); [done|].
        intros H. do 2 invert_seq H. destruct (_ =? z).
        -- invert_seq H. by apply IHf in H.
        -- destruct (negb _); [invert_seq H|]; by apply IHf in H.
    + injection H0 as <- <-. cbn. done.
Qed.

Lemma sig_handler_effects_witness :
  interrupted (set_io initial 1 [newline ++ text "Recieved Signal:" ++ decimal 10 ++ newline]) = 1 ∧
  same_hist initial (set_io initial 1 [newline ++ text "Recieved Signal:" ++ decimal 10 ++ newline]) ∧
  err (set_io initial 1 [newline ++ text "Recieved Signal:" ++ decimal 10 ++ newline]) = err initial ∧
  (10 ≠ SIGCHLD →
   numChildren (set_io initial 1 [newline ++ text "Recieved Signal:" ++ decimal 10 ++ newline]) = numChildren initial ∧
   children (set_io initial 1 [newline ++ text "Recieved Signal:" ++ decimal 10 ++ newline]) = children initial ∧
   pids (set_io initial 1 [newline ++ text "Recieved Signal:" ++ decimal 10 ++ newline]) = pids initial ∧
   [77] = [77]) ∧
  (10 ≠ SIGINT → 10 ≠ SIGCHLD →
   out (set_io initial 1 [newline ++ text "Recieved Signal:" ++ decimal 10 ++ newline])
   = out initial ++ [newline ++ text "Recieved Signal:" ++ decimal 10
                        ++ newline]).
Proof.
  apply (sig_handler_effects 10 [77] 0 initial). reflexivity.
Defined.

(** ** The start of [main] *)

Lemma install_loop_spec fuel : ∀ sig,
  0 ≤ sig ≤ 32 → (Z.to_nat (32 - sig) ≤ fuel)%nat →
  ∃ l, install_loop fuel sig = Done l ∧ NoDup l ∧
    ∀ s, s ∈ l ↔ sig ≤ s < 32 ∧ s ≠ SIGQUIT.
Proof.
  induction fuel as [|fuel IH]; intros sig Hsig Hfuel.
  - exists []. cbn. assert ((sig <? 32) = false) as -> by lia.
    split; [done|]. split; [constructor|].
    intros s. split; [by intros ?%elem_of_nil|lia].
  - cbn [install_loop]. destruct (Z.ltb_spec sig 32) as [Hlt|Hge].
    + destruct (IH (sig + 1)) as (l & -> & Hnd & Hl); [lia|lia|].
      cbn [mbind result_bind].
      destruct (Z.eqb_spec sig SIGQUIT) as [Hq|Hq]; cbn [negb].
      * exists l. split; [done|]. split; [done|].
        intros s. rewrite Hl. lia.
      * exists (sig :: l). split; [done|]. split.
        -- constructor; [|done]. rewrite Hl. lia.
        -- intros s. rewrite elem_of_cons, Hl. lia.
    + exists []. split; [done|]. split; [constructor|].
      intros s. split; [by intros ?%elem_of_nil|lia].
Qed.

(** X11: the loop at the head of [main] calls [sigaction] once for each
    signal number from 0 to 31 except SIGQUIT, and for no other. *)
Theorem handlers_installed :
  ∃ l, install_handlers = Done l ∧ NoDup l ∧
    ∀ sig, sig ∈ l ↔ 0 ≤ sig < 32 ∧ sig ≠ SIGQUIT.
Proof. apply install_loop_spec; lia. Qed.

(** ** One line recorded *)

(** X12: [recordcmd] with a block large enough for the string changes one
    history entry, the one under the cursor, which then reads back as
    the string; the other nineteen read back as before although the old
    block was freed, and the registry is not touched. *)
Theorem recordcmd_overwrites_one_slot
    (cmd : list ascii) (sz : Z) (st : shell) :
  hist_inv st → strlen cmd + 1 ≤ sz →
  ∃ st', recordcmd cmd sz st = Done st' ∧ hist_inv st' ∧
    texts st' !! Z.to_nat (histInd st) = Some (Some (cstring cmd)) ∧
    (∀ j, j ≠ Z.to_nat (histInd st) → texts st' !! j = texts st !! j) ∧
    tracked st' = tracked st ∧ numChildren st' = numChildren st.
Proof.
  intros Hinv Hfit.
  destruct (recordcmd_spec cmd sz st Hinv Hfit)
    as (st' & Hrec & Hinv' & _ & Htexts & Hn & Hch & Hp & _).
  exists st'. split; [done|]. split; [done|]. rewrite Htexts. split; [|split].
  - apply list_lookup_insert_eq. rewrite texts_length, (hist_len _ Hinv).
    pose proof (hist_ind _ Hinv) as Hh. unfold HISTORY_SIZE in Hh. lia.
  - intros j Hj. by apply list_lookup_insert_ne.
  - unfold tracked. by rewrite Hn, Hch, Hp.
Qed.

Lemma recordcmd_overwrites_one_slot_witness :
  ∃ st', recordcmd (text "ls" ++ NUL :: text "old") 3 initial = Done st' ∧
    hist_inv st' ∧
    texts st' !! Z.to_nat (histInd initial)
    = Some (Some (cstring (text "ls" ++ NUL :: text "old"))) ∧
    (∀ j, j ≠ Z.to_nat (histInd initial) → texts st' !! j = texts initial !! j) ∧
    tracked st' = tracked initial ∧ numChildren st' = numChildren initial.
Proof.
  apply (recordcmd_overwrites_one_slot (text "ls" ++ NUL :: text "old") 3 initial).
  - apply hist_inv_initial.
  - by vm_compute.
Defined.

(** ** Reads that are not one whole line *)

Lemma strchr_spec (c : ascii) (s : list ascii) : ∀ base,
  match strchr s c base with
  | Done (Some k) =>
      ∃ pre post, s = pre ++ c :: post ∧ k = (base + length pre)%nat ∧
        Forall (λ x, x ≠ c ∧ x ≠ NUL) pre
  | Done None =>
      ∃ pre post, s = pre ++ NUL :: post ∧ c ≠ NUL ∧
        Forall (λ x, x ≠ c ∧ x ≠ NUL) pre
  | Fault f =>
      f = OutOfBounds (Z.of_nat (base + length s)) ∧
      Forall (λ x, x ≠ c ∧ x ≠ NUL) s
  | Timeout => False
  end.
Proof.
  induction s as [|x s IH]; intros base; cbn [strchr].
  - split; [|constructor]. cbn. by rewrite Nat.add_0_r.
  - destruct (Ascii.eqb_spec x c) as [->|Hxc].
    { exists [], s. split; [done|]. split; [cbn; lia|constructor]. }
    destruct (Ascii.eqb_spec x NUL) as [->|Hx0].
    { exists [], s. split; [done|]. split; [congruence|constructor]. }
    specialize (IH (S base)).
    destruct (strchr s c (S base)) as [[k|]|f|].
    + destruct IH as (pre & post & -> & -> & Hpre).
      exists (x :: pre), post. split; [done|]. split; [cbn; lia|].
      by constructor.
    + destruct IH as (pre & post & -> & Hc & Hpre).
      exists (x :: pre), post. split; [done|]. split; [done|]. by constructor.
    + destruct IH as [-> Hs]. split; [|by constructor].
      f_equal. cbn. lia.
    + done.
Qed.

Lemma cstring_prefix (line post : list ascii) :
  Forall (λ x, x ≠ NUL) line → cstring (line ++ NUL :: post) = line.
Proof.
  induction 1 as [|x line Hx _ IH]; cbn; [done|].
  destruct (Ascii.eqb_spec x NUL) as [->|_]; [done|]. by rewrite IH.
Qed.

Lemma cstring_long (pre post : list ascii) :
  Forall (λ x, x ≠ NUL) pre →
  (length pre ≤ length (cstring (pre ++ post)))%nat.
Proof.
  induction 1 as [|x line Hx _ IH]; cbn; [lia|].
  destruct (Ascii.eqb_spec x NUL) as [->|_]; [done|]. cbn. lia.
Qed.

(** X13: whenever the replacement of the line terminator (lines 52-53 of
    [main]) completes, the buffer held a first newline or NUL after a
    prefix free of both; that byte is now NUL, every other byte of the
    buffer is as it was, and the buffer reads as the prefix.  So of
    several lines that one [read] brings only the first is seen. *)
Theorem chomp_cuts_at_first_newline (buff buff' : list ascii) :
  chomp buff = Done buff' →
  ∃ line c post,
    buff = line ++ c :: post ∧ (c = "010"%char ∨ c = NUL) ∧
    buff' = line ++ NUL :: post ∧ cstring buff' = line ∧
    Forall (λ x, x ≠ "010"%char ∧ x ≠ NUL) line.
Proof.
  unfold chomp. intros H.
  pose proof (strchr_spec "010"%char buff 0) as Hspec.
  destruct (strchr buff "010"%char 0) as [[k|]|f|]; [| |done..].
  - destruct Hspec as (pre & post & -> & -> & Hpre).
    cbn [mbind result_bind] in H.
    rewrite store_in_range in H by (rewrite length_app; cbn; lia).
    injection H as <-. rewrite Nat2Z.id. cbn [Nat.add].
    rewrite insert_app_r_alt, Nat.sub_diag by done. cbn [insert list_insert].
    exists pre, "010"%char, post.
    split; [done|]. split; [by left|]. split; [done|]. split; [|done].
    apply cstring_prefix. eapply Forall_impl; [done|]. by intros x [_ ?].
  - destruct Hspec as (pre & post & -> & _ & Hpre).
    cbn [mbind result_bind] in H. injection H as <-.
    exists pre, NUL, post.
    split; [done|]. split; [by right|]. split; [done|]. split; [|done].
    apply cstring_prefix. eapply Forall_impl; [done|]. by intros x [_ ?].
Qed.

Lemma chomp_cuts_at_first_newline_witness :
  ∃ line c post,
    text "ls" ++ newline ++ text "pwd" ++ newline = line ++ c :: post ∧
    (c = "010"%char ∨ c = NUL) ∧
    text "ls" ++ NUL :: text "pwd" ++ newline = line ++ NUL :: post ∧
    cstring (text "ls" ++ NUL :: text "pwd" ++ newline) = line ∧
    Forall (λ x, x ≠ "010"%char ∧ x ≠ NUL) line.
Proof.
  apply (chomp_cuts_at_first_newline
           (text "ls" ++ newline ++ text "pwd" ++ newline)).
  reflexivity.
Defined.

(** X14: a [read] that returns [r > 1] bytes none of which is a newline
    or a NUL (a line cut by the 64-byte buffer, or input that ends
    without a newline) leads the loop body into undefined behaviour.
    Either [buff] holds no newline and no NUL at all and [strchr] reads
    past its end; or [strchr] stops in the bytes an earlier line left
    behind, the string handed to [recordcmd] is at least [r] bytes long
    and [strcpy] writes past the [r]-byte block allocated for it.  The
    embedding of the iteration ends at that access; what a compiled
    shell does after it is not described. *)
Theorem unterminated_read_overruns
    (r : Z) (buff : list ascii) (env : os) (st : shell) :
  hist_inv st → interrupted st = 0 →
  1 < r ≤ Z.of_nat (length buff) →
  Forall (λ x, x ≠ "010"%char ∧ x ≠ NUL) (take (Z.to_nat r) buff) →
  (chomp buff = Fault (OutOfBounds (Z.of_nat (length buff))) ∧
   iteration r buff env st = Crashed (OutOfBounds (Z.of_nat (length buff)))) ∨
  (∃ buff',
     chomp buff = Done buff' ∧ r ≤ strlen buff' ∧
     recordcmd buff' r st = Fault (OutOfBounds r) ∧
     iteration r buff env st = Crashed (OutOfBounds r)).
Proof.
  intros Hinv Hflag Hr Hchunk.
  assert (∀ buff', r ≤ strlen buff' →
            recordcmd buff' r st = Fault (OutOfBounds r)) as Hrec.
  { intros buff' Hlen. unfold recordcmd.
    destruct (load_in_range (history st) (histInd st)) as (old & _ & ->).
    { rewrite (hist_len _ Hinv). pose proof (hist_ind _ Hinv) as Hh.
      unfold HISTORY_SIZE in Hh. lia. }
    cbn [mbind result_bind].
    destruct (Z.leb_spec (strlen buff' + 1) r); [lia|done]. }
  assert (∀ buff' k,
            buff' = <[k := NUL]> buff ∨ buff' = buff →
            (Z.to_nat r ≤ k)%nat →
            Forall (λ x, x ≠ NUL) (take k buff) →
            r ≤ strlen buff') as Hlong.
  { intros buff' k Hbuff' Hk Hpre.
    assert (Z.of_nat (Z.to_nat r) ≤ strlen buff') as Hlen; [|lia].
    unfold strlen. apply inj_le.
    assert (take (Z.to_nat r) buff' = take (Z.to_nat r) buff) as Htake.
    { destruct Hbuff' as [->| ->]; [|done]. by rewrite take_insert_ge. }
    rewrite <- (take_drop (Z.to_nat r) buff'), Htake.
    etrans; [|apply cstring_long].
    - rewrite length_take. lia.
    - rewrite <- (Nat.min_l (Z.to_nat r) k), <- take_take by done.
      by apply Forall_take. }
  assert (∀ (c : ascii) pre post,
            buff = pre ++ c :: post → c = "010"%char ∨ c = NUL →
            (Z.to_nat r ≤ length pre)%nat) as Hpast.
  { intros c pre post Hbuff Hc.
    destruct (decide (Z.to_nat r ≤ length pre)%nat) as [|Hlt]; [done|].
    exfalso. rewrite Hbuff in Hchunk.
    assert (take (Z.to_nat r) (pre ++ c :: post) !! length pre = Some c)
      as Hat.
    { rewrite lookup_take_lt by lia.
      by rewrite lookup_app_r, Nat.sub_diag. }
    eapply Forall_lookup_1 in Hat; [|done].
    destruct Hat as [? ?], Hc; done. }
  assert (∀ buff', chomp buff = Done buff' → r ≤ strlen buff' →
            iteration r buff env st = Crashed (OutOfBounds r)) as Hiter.
  { intros buff' Hchomp Hlen. unfold iteration. rewrite Hflag.
    assert ((r >? 1) = true) as -> by lia. cbn [andb Z.eqb].
    rewrite Hchomp. cbn [run]. by rewrite (Hrec buff' Hlen). }
  pose proof (strchr_spec "010"%char buff 0) as Hspec.
  destruct (strchr buff "010"%char 0) as [[k|]|f|] eqn:Hchr; [| | |done].
  - right. destruct Hspec as (pre & post & Hbuff & -> & Hpre).
    assert (chomp buff = Done (<[length pre := NUL]> buff)) as Hchomp.
    { unfold chomp. rewrite Hchr. cbn [mbind result_bind Nat.add].
      rewrite store_in_range by (rewrite Hbuff, length_app; cbn; lia).
      by rewrite Nat2Z.id. }
    assert (r ≤ strlen (<[length pre := NUL]> buff)) as Hlen.
    { apply (Hlong _ (length pre)); [by left|by eapply Hpast; eauto|].
      rewrite Hbuff, take_app_length.
      eapply Forall_impl; [done|]. by intros x [_ ?]. }
    eexists. split; [done|]. split; [done|]. split; [by apply Hrec|].
    by eapply Hiter.
  - right. destruct Hspec as (pre & post & Hbuff & _ & Hpre).
    assert (chomp buff = Done buff) as Hchomp.
    { unfold chomp. by rewrite Hchr. }
    assert (r ≤ strlen buff) as Hlen.
    { apply (Hlong _ (length pre)); [by right|by eapply Hpast; eauto|].
      rewrite Hbuff, take_app_length.
      eapply Forall_impl; [done|]. by intros x [_ ?]. }
    exists buff. split; [done|]. split; [done|]. split; [by apply Hrec|].
    by eapply Hiter.
  - left. destruct Hspec as [-> _].
    assert (chomp buff = Fault (OutOfBounds (Z.of_nat (length buff))))
      as Hchomp.
    { unfold chomp. by rewrite Hchr. }
    split; [done|]. unfold iteration. rewrite Hflag.
    assert ((r >? 1) = true) as -> by lia. cbn [andb Z.eqb].
    by rewrite Hchomp.
Qed.

Lemma unterminated_read_overruns_witness :
  (chomp (text "lsho hello" ++ NUL :: text "xyz")
   = Fault (OutOfBounds
              (Z.of_nat (length (text "lsho hello" ++ NUL :: text "xyz")))) ∧
   iteration 2 (text "lsho hello" ++ NUL :: text "xyz") (Os 7 true [7]) initial
   = Crashed (OutOfBounds
                (Z.of_nat (length (text "lsho hello" ++ NUL :: text "xyz"))))) ∨
  (∃ buff',
     chomp (text "lsho hello" ++ NUL :: text "xyz") = Done buff' ∧
     2 ≤ strlen buff' ∧
     recordcmd buff' 2 initial = Fault (OutOfBounds 2) ∧
     iteration 2 (text "lsho hello" ++ NUL :: text "xyz") (Os 7 true [7])
       initial
     = Crashed (OutOfBounds 2)).
Proof.
  apply (unterminated_read_overruns 2 (text "lsho hello" ++ NUL :: text "xyz")
           (Os 7 true [7]) initial).
  - apply hist_inv_initial.
  - reflexivity.
  - by vm_compute.
  - apply (bool_decide_unpack _). by vm_compute.
Defined.

(** ** Signals in the read loop *)

Lemma sig_handler_flag sig zombies garbage st st' zombies' :
  sig_handler sig zombies garbage st = Done (st', zombies') →
  interrupted st' = 1.
Proof.
  unfold sig_handler. intros H. invert_seq H.
  destruct x as [st1 z1]. by injection H as <- _.
Qed.

(** X15: a signal that interrupts [read] never ends the loop and never
    makes it record or execute what the buffer holds: once the handler
    has returned, [main] clears the flag, prints the prompt and reads
    again with the buffer as it was. *)
Theorem signal_resumes_loop
    (sig : Z) (zombies : list pid_t) (garbage : Z) (rest : list event)
    (buff : list ascii) (st st' : shell) (zombies' : list pid_t) :
  sig_handler sig zombies garbage st = Done (st', zombies') →
  main_loop (Signal sig zombies garbage :: rest) buff st
  = main_loop rest buff (prompt st') ∧
  interrupted (prompt st') = 0 ∧ same_hist st (prompt st').
Proof.
  intros H. cbn [main_loop]. rewrite H. cbn [run].
  pose proof (sig_handler_flag _ _ _ _ _ _ H) as Hflag.
  unfold goes_on, iteration. rewrite Hflag. cbn.
  split; [done|]. split; [done|].
  eapply same_hist_trans; [by eapply sig_handler_frame|apply prompt_frame].
Qed.

Lemma signal_resumes_loop_witness :
  main_loop (Signal 10 [] 0 :: []) (text "stale") initial
  = main_loop [] (text "stale")
      (prompt (set_io initial 1
                 [newline ++ text "Recieved Signal:" ++ decimal 10 ++ newline])) ∧
  interrupted
    (prompt (set_io initial 1
               [newline ++ text "Recieved Signal:" ++ decimal 10 ++ newline]))
  = 0 ∧
  same_hist initial
    (prompt (set_io initial 1
               [newline ++ text "Recieved Signal:" ++ decimal 10 ++ newline])).
Proof.
  apply (signal_resumes_loop 10 [] 0 [] (text "stale") initial _ []).
  reflexivity.
Defined.

(** X16: in every state with a well-formed history the handler of SIGINT
    returns; it writes a blank line and then the stored lines, oldest
    first from the cursor on, each followed by a newline, sets
    [interrupted], and changes neither the history nor the registry. *)
Theorem interrupt_lists_history
    (zombies : list pid_t) (garbage : Z) (st : shell) :
  hist_inv st →
  ∃ st', sig_handler SIGINT zombies garbage st = Done (st', zombies) ∧
    out st' = out st ++ newline :: map println (omap id (chronological st)) ∧
    interrupted st' = 1 ∧ same_hist st st' ∧
    numChildren st' = numChildren st ∧ children st' = children st ∧
    pids st' = pids st.
Proof.
  intros Hinv. unfold sig_handler, printHistory.
  rewrite (printHistory_loop_trace st Hinv).
  change (SIGINT =? SIGINT) with true. cbn [mbind result_bind].
  eexists. split; [reflexivity|]. cbn [out set_io interrupted].
  rewrite (printed_trace st Hinv). done.
Qed.

Lemma interrupt_lists_history_witness :
  ∃ st,
    record_all [(text "ls -l", 6); (text "pwd", 4)] initial = Done st ∧
    ∃ st',
      sig_handler SIGINT [5] 0 st = Done (st', [5]) ∧
      out st' = [newline; println (text "ls -l"); println (text "pwd")] ∧
      interrupted st' = 1 ∧ same_hist st st' ∧
      numChildren st' = numChildren st ∧ children st' = children st ∧
      pids st' = pids st.
Proof.
  eexists. split; [reflexivity|].
  match goal with
  | |- ∃ st', sig_handler _ _ _ ?s = _ ∧ _ =>
      apply (interrupt_lists_history [5] 0 s)
  end.
  eapply (recordcmd_inv (text "pwd") 4);
    [eapply (recordcmd_inv (text "ls -l") 6);
       [apply hist_inv_initial|reflexivity]
    |reflexivity].
Defined.

(** ** No history block is lost *)

Lemma filter_insert_length {A} (P : A → Prop) `{!∀ x, Decision (P x)}
    (l : list A) (i : nat) (x y : A) :
  l !! i = Some x →
  (length (filter P (<[i := y]> l)) + (if decide (P x) then 1 else 0)
   = length (filter P l) + (if decide (P y) then 1 else 0))%nat.
Proof.
  revert i. induction l as [|a l IH]; intros i Hi; [by destruct i|].
  destruct i as [|i]; cbn in Hi.
  - injection Hi as ->. change (<[0%nat := y]> (x :: l)) with (y :: l).
    rewrite !filter_cons.
    destruct (decide (P x)), (decide (P y)); cbn [length]; lia.
  - change (<[S i := y]> (a :: l)) with (a :: <[i := y]> l).
    specialize (IH i Hi). rewrite !filter_cons.
    destruct (decide (P a)); cbn [length]; lia.
Qed.

Lemma live_app {A} (h : list (option A)) (v : A) :
  live (h ++ [Some v]) = S (live h).
Proof.
  unfold live. rewrite filter_app, length_app.
  rewrite filter_cons, decide_True by done. cbn. lia.
Qed.

Lemma recordcmd_shape cmd sz st st' :
  recordcmd cmd sz st = Done st' →
  ∃ old, history st !! Z.to_nat (histInd st) = Some old ∧
    free (strs st ++ [Some (cstring cmd)]) old = Done (strs st') ∧
    history st'
    = <[Z.to_nat (histInd st) := Some (length (strs st))]> (history st).
Proof.
  unfold recordcmd. intros H. invert_seq H. rename x into old.
  apply load_Done in H0 as [_ Hold].
  destruct (_ <=? _); [|done]. cbn [malloc] in H. do 2 invert_seq H.
  injection H as <-. cbn [strs history].
  apply store_Done in H1 as [_ ->].
  exists old. done.
Qed.

Lemma recordcmd_owned cmd sz st st' :
  hist_inv st → recordcmd cmd sz st = Done st' →
  (∀ p s, strs st !! p = Some (Some s) →
     ∃ j, history st !! j = Some (Some p)) →
  ∀ p s, strs st' !! p = Some (Some s) → ∃ j, history st' !! j = Some (Some p).
Proof.
  intros Hinv Hrec Hown p s Hp.
  destruct (recordcmd_shape _ _ _ _ Hrec) as (old & Hold & Hfree & ->).
  set (h := Z.to_nat (histInd st)) in *.
  assert (h < length (history st))%nat as Hh by (by eapply lookup_lt_Some).
  assert (∃ s', (strs st ++ [Some (cstring cmd)]) !! p = Some (Some s')
                ∧ old ≠ Some p) as (s' & Hp' & Hne).
  { destruct old as [a|]; cbn in Hfree.
    - destruct ((strs st ++ [Some (cstring cmd)]) !! a) as [[v|]|] eqn:Ha;
        [|done..].
      injection Hfree as Hfree. rewrite <- Hfree in Hp.
      destruct (decide (p = a)) as [->|Hpa].
      + rewrite list_lookup_insert_eq in Hp by (by eapply lookup_lt_Some).
        done.
      + rewrite list_lookup_insert_ne in Hp by done.
        exists s. split; [done|congruence].
    - injection Hfree as Hfree. rewrite <- Hfree in Hp. by exists s. }
  destruct (decide (p = length (strs st))) as [->|Hfresh].
  - exists h. by rewrite list_lookup_insert_eq.
  - assert (p < length (strs st))%nat as Hlt.
    { apply lookup_lt_Some in Hp'. rewrite length_app in Hp'. cbn in Hp'. lia. }
    rewrite lookup_app_l in Hp' by done.
    destruct (Hown p s' Hp') as [j Hj].
    exists j. rewrite list_lookup_insert_ne; [done|].
    intros <-. congruence.
Qed.

Lemma recordcmd_live cmd sz st st' :
  hist_inv st → recordcmd cmd sz st = Done st' →
  live (strs st) = length (filter is_Some (history st)) →
  live (strs st') = length (filter is_Some (history st')).
Proof.
  intros Hinv Hrec Hcount.
  destruct (recordcmd_shape _ _ _ _ Hrec) as (old & Hold & Hfree & ->).
  pose proof (filter_insert_length is_Some (history st) _ old
                (Some (length (strs st))) Hold) as Hhist.
  rewrite (decide_True (P := is_Some (Some _))) in Hhist by done.
  destruct old as [a|]; cbn in Hfree.
  - destruct ((strs st ++ [Some (cstring cmd)]) !! a) as [[v|]|] eqn:Ha;
      [|done..].
    injection Hfree as Hfree. rewrite <- Hfree.
    pose proof (filter_insert_length is_Some _ _ _ None Ha) as Hstrs.
    rewrite decide_True in Hstrs by done.
    rewrite decide_False in Hstrs by (by intros [? ?]).
    rewrite decide_True in Hhist by done.
    fold (live (<[a:=None]> (strs st ++ [Some (cstring cmd)]))) in Hstrs.
    fold (live (strs st ++ [Some (cstring cmd)])) in Hstrs.
    rewrite live_app in Hstrs. lia.
  - injection Hfree as Hfree. rewrite <- Hfree, live_app.
    rewrite decide_False in Hhist by (by intros [? ?]). lia.
Qed.

Lemma iteration_recordcmd r buff env st st' buff' :
  iteration r buff env st = Continues (st', buff') →
  same_hist st st' ∨
  ∃ cmd st1, recordcmd cmd r st = Done st1 ∧ same_hist st1 st'.
Proof.
  unfold iteration.
  destruct (_ && _); [|intros [= <- _]; left; apply prompt_frame].
  intros H. do 3 invert_seq H.
  destruct x1 as [[[ret st2] b] reports]. injection H as <- _.
  apply execcmd_frame in H2 as [Hframe _].
  right. exists x, x0. split; [done|].
  eapply same_hist_trans; [done|apply prompt_frame].
Qed.

Lemma step_recordcmd_or_frame st st' :
  step st st' →
  same_hist st st' ∨
  ∃ cmd sz st1, recordcmd cmd sz st = Done st1 ∧ same_hist st1 st'.
Proof.
  intros Hstep. destruct Hstep.
  - right. exists cmd, sz, st'. split; [done|apply same_hist_refl].
  - left. by eapply printHistory_frame.
  - left. by eapply addChild_frame.
  - left. by eapply removeChild_frame.
  - left. by eapply sig_handler_frame.
  - left. by eapply execcmd_frame.
  - apply iteration_recordcmd in H as [?|(cmd & st1 & ? & ?)]; [by left|].
    right. by exists cmd, r, st1.
Qed.

(** X17: the history leaks no memory.  In every state the shell reaches
    without undefined behaviour each block [recordcmd] allocated and has
    not freed is pointed to by a slot of [history], and the blocks not
    freed are as many as the slots that are not NULL: at most twenty. *)
Theorem history_blocks_not_leaked (st : shell) :
  reachable st →
  (∀ p s, strs st !! p = Some (Some s) →
     ∃ j, (j < 20)%nat ∧ history st !! j = Some (Some p)) ∧
  live (strs st) = length (filter is_Some (history st)) ∧
  (live (strs st) ≤ 20)%nat.
Proof.
  intros Hreach.
  assert ((∀ p s, strs st !! p = Some (Some s) →
             ∃ j, history st !! j = Some (Some p)) ∧
          live (strs st) = length (filter is_Some (history st))) as [Hown Hcount].
  { revert st Hreach. unfold reachable.
    apply (rtc_ind_r
             (λ st, (∀ p s, strs st !! p = Some (Some s) →
                       ∃ j, history st !! j = Some (Some p)) ∧
                    live (strs st) = length (filter is_Some (history st)))
             initial).
    - split; [|done]. intros p s Hp. by destruct p.
    - intros st st' Hreach Hstep [Hown Hcount].
      pose proof (reachable_inv st Hreach) as Hinv.
      apply step_recordcmd_or_frame in Hstep
        as [(Hh & _ & Hs)|(cmd & sz & st1 & Hrec & (Hh & _ & Hs))].
      + rewrite Hh, Hs. done.
      + rewrite Hh, Hs. split.
        * by eapply recordcmd_owned.
        * by eapply recordcmd_live. }
  pose proof (hist_len _ (reachable_inv st Hreach)) as Hlen.
  split; [|split; [done|]].
  - intros p s Hp. destruct (Hown p s Hp) as [j Hj]. exists j.
    split; [|done]. apply lookup_lt_Some in Hj. lia.
  - rewrite Hcount, <- Hlen. apply length_filter.
Qed.

Lemma history_blocks_not_leaked_witness :
  ∃ st, record_all [(text "ls", 3); (text "pwd", 4)] initial = Done st ∧
    (∀ p s, strs st !! p = Some (Some s) →
       ∃ j, (j < 20)%nat ∧ history st !! j = Some (Some p)) ∧
    live (strs st) = length (filter is_Some (history st)) ∧
    (live (strs st) ≤ 20)%nat.
Proof.
  eexists. split; [reflexivity|].
  apply history_blocks_not_leaked.
  eapply rtc_l; [by eapply (step_recordcmd (text "ls") 3)|].
  eapply rtc_l; [by eapply (step_recordcmd (text "pwd") 4)|].
  apply rtc_refl.
Defined.
